(** * Verification of the media resolution, delivery, tag routing and
      pagination logic of the sticker gallery client.

    Sources embedded here:
    - [src/unnamed/part_002] ([utils/unsplash.ts]): [extractUnsplashId],
      [triggerUnsplashDownload];
    - [src/unnamed/part_001] ([utils/download.ts]): [downloadImageWithLink],
      [downloadImageWithFetch], [downloadImageViaImgElement],
      [downloadImageWithWindow], [processR2Url], [downloadImage];
    - [src/project/src/components/About.tsx] (the [TagPage] module):
      [TAG_TO_SLUG], [SLUG_TO_TAG], [getRelatedTags];
    - [src/project/src/components/ImageGrid.tsx]: [getFilteredImages],
      [loadImages], [loadMoreImages], [hasMoreImages] and the
      filter-change effect.

    JavaScript strings are lists of ASCII characters. *)

From Stdlib Require Import Ascii String List Bool Arith Lia ZArith.
From Stdlib Require Import Permutation Sorting.Sorted.
Import ListNotations.
Open Scope list_scope.
Set Warnings "-register-all".

Definition str := list ascii.
Definition lit (s : string) : str := list_ascii_of_string s.

(** ** String helpers (JavaScript [String.prototype] methods) *)

Fixpoint str_eqb (a b : str) : bool :=
  match a, b with
  | [], [] => true
  | x :: a', y :: b' => Ascii.eqb x y && str_eqb a' b'
  | _, _ => false
  end.

(** [s.startsWith(p)] *)
Fixpoint starts_with (p s : str) : bool :=
  match p, s with
  | [], _ => true
  | x :: p', y :: s' => Ascii.eqb x y && starts_with p' s'
  | _ :: _, [] => false
  end.

(** [s.endsWith(p)] *)
Definition ends_with (p s : str) : bool := starts_with (rev p) (rev s).

(** [s.includes(p)] *)
Fixpoint includes (p s : str) : bool :=
  starts_with p s || match s with [] => false | _ :: s' => includes p s' end.

(** [s.replace(a, b)] with a string pattern: replaces the first occurrence. *)
Fixpoint replace_first (a b s : str) : str :=
  if starts_with a s then b ++ skipn (length a) s
  else match s with [] => [] | c :: s' => c :: replace_first a b s' end.

(** [s.slice(i, j)] (strings and arrays) for [0 <= i <= j]. *)
Definition list_slice {A} (i j : nat) (s : list A) : list A := firstn (j - i) (skipn i s).
Definition str_slice (i j : nat) (s : str) : str := list_slice i j s.

(** ** JavaScript values and completions *)

Inductive jsval : Type :=
| JUndef
| JNull
| JBool (b : bool)
| JNum (z : Z)
| JStr (s : str)
| JArr (l : list jsval)
| JObj (fields : list (str * jsval)).

(** ToBoolean *)
Definition truthy (v : jsval) : bool :=
  match v with
  | JUndef | JNull => false
  | JBool b => b
  | JNum z => negb (Z.eqb z 0)
  | JStr s => negb (Nat.eqb (length s) 0)
  | JArr _ | JObj _ => true
  end.

Inductive jserror : Type := SyntaxError | TypeError | SecurityError.

(** Completion of a synchronous JavaScript computation: a value or a
    thrown exception. *)
Inductive completion (A : Type) : Type :=
| Normal (a : A)
| Throw (e : jserror).
Arguments Normal {A} a.
Arguments Throw {A} e.

Definition cbind {A B} (m : completion A) (f : A -> completion B) : completion B :=
  match m with Normal a => f a | Throw e => Throw e end.

Notation "x <- m ;; k" := (cbind m (fun x => k))
  (at level 61, m at next level, right associativity).

(** [try { m } catch (e) { h }] *)
Definition try_catch {A} (m : completion A) (h : jserror -> completion A) : completion A :=
  match m with Normal a => Normal a | Throw e => h e end.

Fixpoint assoc_lookup (k : str) (fs : list (str * jsval)) : option jsval :=
  match fs with
  | [] => None
  | (k', v) :: fs' => if str_eqb k k' then Some v else assoc_lookup k fs'
  end.

(** Property read [o.p]: throws on [undefined] and [null]; the other
    primitives and arrays have no property named like the ones read here. *)
Definition get_prop (o : jsval) (p : str) : completion jsval :=
  match o with
  | JUndef | JNull => Throw TypeError
  | JObj fs => Normal (match assoc_lookup p fs with Some v => v | None => JUndef end)
  | _ => Normal JUndef
  end.

(** ** ToString, as used by template literals *)

Fixpoint nat_digits (fuel n : nat) (acc : str) : str :=
  match fuel with
  | 0 => acc
  | S f =>
      let acc' := ascii_of_nat (48 + n mod 10) :: acc in
      if Nat.ltb n 10 then acc' else nat_digits f (n / 10) acc'
  end.

Definition Z_to_dec (z : Z) : str :=
  if Z.ltb z 0 then lit "-" ++ nat_digits (S (Z.to_nat (- z))) (Z.to_nat (- z)) []
  else nat_digits (S (Z.to_nat z)) (Z.to_nat z) [].

Fixpoint js_to_string (v : jsval) : str :=
  match v with
  | JUndef => lit "undefined"
  | JNull => lit "null"
  | JBool true => lit "true"
  | JBool false => lit "false"
  | JNum z => Z_to_dec z
  | JStr s => s
  | JArr l =>
      (fix join (l : list jsval) : str :=
         let elem (x : jsval) := match x with JUndef | JNull => [] | _ => js_to_string x end in
         match l with
         | [] => []
         | [x] => elem x
         | x :: l' => elem x ++ lit "," ++ join l'
         end) l
  | JObj _ => lit "[object Object]"
  end.

(** ** A backtracking regular-expression matcher

    The patterns of [extractUnsplashId] use character classes, literal
    strings, alternation, bounded greedy repetition [{m,n}], one capture
    group and the anchors [^] and [$].  [re_match] follows the ECMAScript
    backtracking semantics: continuation-passing, left alternative first,
    greedy repetition tries one more iteration before stopping. *)

Inductive regex : Type :=
| RClass (f : ascii -> bool)
| RLit (l : str)
| RSeq (r1 r2 : regex)
| RAlt (r1 r2 : regex)
| RRep (r : regex) (min max : nat)
| RGroup (r : regex)
| RBol
| REol.

(** Capture of group 1 as a pair of positions. *)
Definition caps := option (nat * nat).

Fixpoint re_match (r : regex) (s : str) (i : nat) (c : caps)
    (k : nat -> caps -> option caps) {struct r} : option caps :=
  match r with
  | RClass f =>
      match nth_error s i with
      | Some a => if f a then k (S i) c else None
      | None => None
      end
  | RLit l => if starts_with l (skipn i s) then k (i + length l) c else None
  | RSeq r1 r2 => re_match r1 s i c (fun i' c' => re_match r2 s i' c' k)
  | RAlt r1 r2 =>
      match re_match r1 s i c k with
      | Some x => Some x
      | None => re_match r2 s i c k
      end
  | RRep r1 mn mx =>
      (fix rep (mn mx i : nat) (c : caps) {struct mx} : option caps :=
         match mx with
         | 0 => if Nat.eqb mn 0 then k i c else None
         | S mx' =>
             match re_match r1 s i c (fun i' c' => rep (pred mn) mx' i' c') with
             | Some x => Some x
             | None => if Nat.eqb mn 0 then k i c else None
             end
         end) mn mx i c
  | RGroup r1 => re_match r1 s i c (fun i' _ => k i' (Some (i, i')))
  | RBol => if Nat.eqb i 0 then k i c else None
  | REol => if Nat.eqb i (length s) then k i c else None
  end.

Definition accept : nat -> caps -> option caps := fun _ c => Some c.

(** Non-global [s.match(r)]: the first start position, scanning left to
    right, at which the pattern matches; the result carries group 1. *)
Fixpoint exec_from (r : regex) (s : str) (i fuel : nat) : option caps :=
  match fuel with
  | 0 => None
  | S fuel' =>
      match re_match r s i None accept with
      | Some c => Some c
      | None => exec_from r s (S i) fuel'
      end
  end.

Definition exec (r : regex) (s : str) : option caps :=
  exec_from r s 0 (S (length s)).

(** [r.test(s)] *)
Definition re_test (r : regex) (s : str) : bool :=
  match exec r s with Some _ => true | None => false end.

(** [match[1]]: the captured substring, [undefined] when the group did not
    take part. *)
Definition group1 (s : str) (c : caps) : jsval :=
  match c with
  | Some (i, j) => JStr (str_slice i j s)
  | None => JUndef
  end.

(** [[a-zA-Z0-9_-]] *)
Definition is_id_char (a : ascii) : bool :=
  let n := nat_of_ascii a in
  (Nat.leb 97 n && Nat.leb n 122) || (Nat.leb 65 n && Nat.leb n 90)
  || (Nat.leb 48 n && Nat.leb n 57) || Nat.eqb n 95 || Nat.eqb n 45.

(** [[-_]] *)
Definition is_sep_char (a : ascii) : bool :=
  let n := nat_of_ascii a in Nat.eqb n 45 || Nat.eqb n 95.

(** [[a-zA-Z0-9_-]{10,13}] *)
Definition id_token : regex := RRep (RClass is_id_char) 10 13.

(** [/^[a-zA-Z0-9_-]{10,13}$/] *)
Definition re_exact : regex := RSeq RBol (RSeq id_token REol).

(** [/[-_]([a-zA-Z0-9_-]{10,13})(?:-unsplash|$)/] *)
Definition re_pat1 : regex :=
  RSeq (RClass is_sep_char)
    (RSeq (RGroup id_token) (RAlt (RLit (lit "-unsplash")) REol)).

(** [/-([a-zA-Z0-9_-]{10,13})$/] *)
Definition re_pat2 : regex :=
  RSeq (RLit (lit "-")) (RSeq (RGroup id_token) REol).

(** [/([a-zA-Z0-9_-]{10,13})-unsplash/] *)
Definition re_pat3 : regex := RSeq (RGroup id_token) (RLit (lit "-unsplash")).

(** [/^([a-zA-Z0-9_-]{10,13})-/] *)
Definition re_pat4 : regex := RSeq RBol (RSeq (RGroup id_token) (RLit (lit "-"))).

(** [/([a-zA-Z0-9_-]{10,13})/] *)
Definition re_general : regex := RGroup id_token.

Definition patterns : list regex := [re_pat1; re_pat2; re_pat3; re_pat4].

(** ** [extractUnsplashId] *)

Section ExtractUnsplashId.

(** [JSON.parse]: a value, or a thrown [SyntaxError]. *)
Variable json_parse : str -> completion jsval.

(** Lines 26-35: the JSON strategy.  [Some v]: return [v];
    [None]: go on with the patterns. *)
Definition json_stage (imageId : str) : completion (option jsval) :=
  if starts_with (lit "{") imageId && ends_with (lit "}") imageId then
    try_catch
      (parsedData <- json_parse imageId ;;
       u <- get_prop parsedData (lit "unsplash_id") ;;
       Normal (if truthy u then Some u else None))
      (fun _ => Normal None)
  else Normal None.

(** Lines 49-54: the first pattern whose [match && match[1]] is truthy. *)
Fixpoint try_patterns (ps : list regex) (imageId : str) : option jsval :=
  match ps with
  | [] => None
  | p :: ps' =>
      match exec p imageId with
      | Some c => if truthy (group1 imageId c) then Some (group1 imageId c)
                  else try_patterns ps' imageId
      | None => try_patterns ps' imageId
      end
  end.

(** Lines 37-64: the pattern strategies, the general scan, then [null]. *)
Definition pattern_stage (imageId : str) : jsval :=
  match try_patterns patterns imageId with
  | Some v => v
  | None =>
      match exec re_general imageId with
      | Some c => if truthy (group1 imageId c) then group1 imageId c else JNull
      | None => JNull
      end
  end.

Definition extractUnsplashId (imageId : str) : completion jsval :=
  if negb (truthy (JStr imageId)) then Normal JNull
  else if re_test re_exact imageId then Normal (JStr imageId)
  else
    j <- json_stage imageId ;;
    match j with
    | Some v => Normal v
    | None => Normal (pattern_stage imageId)
    end.

(** ** [triggerUnsplashDownload] *)

Definition UNSPLASH_ACCESS_KEY : str := lit "UNexRajSsADsyMXrFwKf9UJmNryJOohrFXpJoRwqR_8".
Definition UNSPLASH_API_URL : str := lit "https://api.unsplash.com".

(** The argument: a string, or an object [{id?: string,
    download_location?: string}] ([None] is an absent field). *)
Inductive trigger_input : Type :=
| TStr (s : str)
| TObj (id : option str) (download_location : option str).

Definition opt_str (o : option str) : jsval :=
  match o with Some x => JStr x | None => JUndef end.

(** The outcome of one call: the reported boolean and the URLs of the
    outbound requests dispatched by [fetch] (not awaited). *)
Definition trigger_result := (bool * list str)%type.

(** Lines 79-103: [downloadUrl] and [unsplashId] after the input analysis. *)
Definition trigger_analyse (imageId : trigger_input) : completion (jsval * jsval) :=
  match imageId with
  | TObj id dl =>
      if truthy (opt_str dl) then Normal (opt_str dl, JNull)
      else if truthy (opt_str id) then
        match id with
        | Some i => u <- extractUnsplashId i ;; Normal (JNull, u)
        | None => Normal (JNull, JNull)
        end
      else Normal (JNull, JNull)
  | TStr s =>
      if includes (lit "/photos/") s && includes (lit "/download") s
      then Normal (JStr s, JNull)
      else u <- extractUnsplashId s ;; Normal (JNull, u)
  end.

Definition triggerUnsplashDownload (imageId : trigger_input) : completion trigger_result :=
  try_catch
    (p <- trigger_analyse imageId ;;
     let '(downloadUrl, unsplashId) := p in
     let downloadUrl :=
       if negb (truthy downloadUrl) && truthy unsplashId
       then JStr (UNSPLASH_API_URL ++ lit "/photos/" ++ js_to_string unsplashId
                  ++ lit "/download?client_id=" ++ UNSPLASH_ACCESS_KEY)
       else downloadUrl in
     if negb (truthy downloadUrl) then Normal (false, [])
     else Normal (true, [js_to_string downloadUrl]))
    (fun _ => Normal (false, [])).

End ExtractUnsplashId.

(** ** The delivery pipeline ([utils/download.ts])

    The browser is an environment: the outcome of each primitive the
    strategies call.  An asynchronous strategy yields [Some b] when its
    promise settles with [b] and [None] when it never settles. *)

Inductive fetch_outcome : Type :=
| FetchRejects            (* network or CORS error: [fetch] rejects *)
| FetchPending            (* the request never completes *)
| FetchStatus (ok : bool). (* a response, [response.ok] *)

Inductive img_outcome : Type :=
| ImgError    (* [img.onerror] fires *)
| ImgPending  (* neither [onload] nor [onerror] ever fires *)
| ImgLoaded.  (* [img.onload] runs *)

Inductive to_blob_outcome : Type :=
| ToBlobThrows  (* tainted canvas: [canvas.toBlob] throws *)
| ToBlobNull    (* the callback receives [null] *)
| ToBlobBlob.   (* the callback receives a blob *)

Inductive blob_outcome : Type :=
| BlobRejects   (* [response.blob()] rejects *)
| BlobPending   (* the body never arrives: [response.blob()] never settles *)
| BlobResolves. (* [response.blob()] resolves with a blob *)

Record browser : Type := {
  dom_ok : bool;                       (* createElement/appendChild/click/removeChild and object URLs do not throw *)
  fetch_result : str -> fetch_outcome;
  blob_result : str -> blob_outcome;   (* how [response.blob()] settles *)
  img_load : str -> img_outcome;
  canvas_ctx : bool;                   (* [canvas.getContext('2d')] is not null *)
  to_blob : str -> to_blob_outcome;
  open_ok : str -> bool                (* [window.open] does not throw *)
}.

Section Delivery.

Variable env : browser.

(** Lines 45-59. *)
Definition downloadImageWithLink (url filename : str) : bool :=
  if dom_ok env then true else false.

(** Lines 12-39: every failure after the call is caught and gives [false]. *)
Definition downloadImageWithFetch (url filename : str) : option bool :=
  match fetch_result env url with
  | FetchPending => None
  | FetchRejects => Some false
  | FetchStatus false => Some false
  | FetchStatus true =>
      match blob_result env url with
      | BlobPending => None
      | BlobRejects => Some false
      | BlobResolves => if dom_ok env then Some true else Some false
      end
  end.

(** Lines 104-173.  A throw from [toBlob] is caught (line 149) and
    resolves [false]; a throw inside the [toBlob] callback escapes the
    [try] and [resolve] is never called. *)
Definition downloadImageViaImgElement (url filename : str) : option bool :=
  match img_load env url with
  | ImgError => Some false
  | ImgPending => None
  | ImgLoaded =>
      if negb (canvas_ctx env) then Some false
      else match to_blob env url with
           | ToBlobThrows => Some false
           | ToBlobNull => Some false
           | ToBlobBlob => if dom_ok env then Some true else None
           end
  end.

(** Lines 65-74. *)
Definition downloadImageWithWindow (url : str) : bool :=
  if open_ok env url then true else false.

End Delivery.

(** Lines 80-99. *)
Definition processR2Url (url : str) : str :=
  if includes (lit ".r2.dev") url || includes (lit "r2.cloudflarestorage.com") url then
    if starts_with (lit "http://") url then replace_first (lit "http://") (lit "https://") url
    else url
  else url.

Inductive strategy : Type := SLink | SFetch | SImg | SWindow.

(** The result of one strategy as [downloadImage] awaits it. *)
Definition run_strategy (env : browser) (st : strategy) (url filename : str) : option bool :=
  match st with
  | SLink => Some (downloadImageWithLink env url filename)
  | SFetch => downloadImageWithFetch env url filename
  | SImg => downloadImageViaImgElement env url filename
  | SWindow => Some (downloadImageWithWindow env url)
  end.

Definition strategy_order : list strategy := [SLink; SFetch; SImg; SWindow].

(** Lines 182-201: the settled result ([None]: never settles) and the
    strategies called, in call order. *)
Definition downloadImage (env : browser) (url0 filename : str) : option bool * list strategy :=
  let url := processR2Url url0 in
  let linkResult := downloadImageWithLink env url filename in
  if linkResult then (Some true, [SLink]) else
  match downloadImageWithFetch env url filename with
  | None => (None, [SLink; SFetch])
  | Some true => (Some true, [SLink; SFetch])
  | Some false =>
      match downloadImageViaImgElement env url filename with
      | None => (None, [SLink; SFetch; SImg])
      | Some true => (Some true, [SLink; SFetch; SImg])
      | Some false => (Some (downloadImageWithWindow env url), [SLink; SFetch; SImg; SWindow])
      end
  end.

(** ** JavaScript plain objects used as dictionaries

    An object is its own properties in creation order.  [Object.entries]
    lists the array-index keys first, in ascending numeric order, then the
    other string keys in creation order (ECMAScript OrdinaryOwnPropertyKeys). *)

Definition jsobj (V : Type) := list (str * V).

Fixpoint obj_get {V} (o : jsobj V) (k : str) : option V :=
  match o with
  | [] => None
  | (k', v) :: o' => if str_eqb k k' then Some v else obj_get o' k
  end.

(** [o[k] = v]: an existing key keeps its place, a new key goes last. *)
Fixpoint obj_set {V} (o : jsobj V) (k : str) (v : V) : jsobj V :=
  match o with
  | [] => [(k, v)]
  | (k', v') :: o' => if str_eqb k k' then (k', v) :: o' else (k', v') :: obj_set o' k v
  end.

Definition is_digit (a : ascii) : bool :=
  Nat.leb 48 (nat_of_ascii a) && Nat.leb (nat_of_ascii a) 57.

Definition digits_value (s : str) : Z :=
  fold_left (fun n a => n * 10 + (Z.of_nat (nat_of_ascii a) - 48))%Z s 0%Z.

(** CanonicalNumericIndexString below 2^32 - 1. *)
Definition is_array_index (k : str) : bool :=
  match k with
  | [] => false
  | a :: rest =>
      forallb is_digit k
      && (negb (Nat.eqb (nat_of_ascii a) 48) || Nat.eqb (length rest) 0)
      && Nat.leb (length k) 10
      && Z.ltb (digits_value k) 4294967295
  end.

Fixpoint insert_index {V} (e : str * V) (l : list (str * V)) : list (str * V) :=
  match l with
  | [] => [e]
  | e' :: l' =>
      if Z.leb (digits_value (fst e)) (digits_value (fst e')) then e :: l
      else e' :: insert_index e l'
  end.

Definition obj_entries {V} (o : jsobj V) : list (str * V) :=
  fold_right insert_index [] (filter (fun e => is_array_index (fst e)) o)
  ++ filter (fun e => negb (is_array_index (fst e))) o.

(** ** Tag routing ([About.tsx], the [TagPage] module) *)

(** Lines 118-136. *)
Definition TAG_TO_SLUG : jsobj str :=
  map (fun p => (lit (fst p), lit (snd p)))
  [("airplane", "airplane-clipart"); ("apple", "apple-clipart");
   ("baby", "baby-clipart"); ("bird", "bird-clipart");
   ("birthday", "birthday-clipart"); ("book", "book-clipart");
   ("camera", "camera-clipart"); ("car", "car-clipart");
   ("cat", "cat-clipart"); ("christmas", "christmas-clipart");
   ("crown", "crown-png"); ("dog", "dog-clipart");
   ("flower", "flower-clipart"); ("gun", "gun-png");
   ("money", "money-png"); ("pumpkin", "pumpkin-clipart");
   ("others", "other-png")]%string.

(** Lines 139-142: [reduce] over the entries; [{...acc, [slug]: tag}]
    copies [acc] and then sets [slug]. *)
Definition SLUG_TO_TAG : jsobj str :=
  fold_left (fun acc e => obj_set acc (snd e) (fst e)) (obj_entries TAG_TO_SLUG) [].

(** The catalog record ([data/images.ts], [ImageData]). *)
Record image : Type := {
  img_id : str;
  caption : str;
  description : str;
  tags : list str;
  slug : str;
  author : str;
  title : str;
  original_url : str;
  png_url : str;
  sticker_url : str;
  created_at : str
}.

Definition tag_others : str := lit "others".

(** Line 195: [relatedTagsMap[imgTag] = (relatedTagsMap[imgTag] || 0) + 1].
    [relatedTagsMap] is a fresh object read through its own properties;
    a key naming an [Object.prototype] member ([constructor], [toString],
    ...) would read the inherited value in JavaScript and is not covered
    by this model. *)
Definition bump (acc : jsobj nat) (imgTag : str) : jsobj nat :=
  obj_set acc imgTag (match obj_get acc imgTag with Some n => n | None => 0 end + 1).

(** Lines 191-198: the co-occurrence counter [relatedTagsMap]. *)
Definition count_tags (tag : str) (taggedImages : list image) : jsobj nat :=
  fold_left
    (fun acc img =>
       fold_left
         (fun acc imgTag =>
            if negb (str_eqb imgTag tag) && negb (str_eqb imgTag tag_others) then
              bump acc imgTag
            else acc)
         (tags img) acc)
    taggedImages [].

(** [Array.prototype.sort] is stable; with the comparator
    [(a, b) => b[1] - a[1]] an entry goes after every entry whose count is
    at least its own. *)
Fixpoint insert_by_count (e : str * nat) (l : list (str * nat)) : list (str * nat) :=
  match l with
  | [] => [e]
  | e' :: l' => if Nat.leb (snd e) (snd e') then e' :: insert_by_count e l' else e :: l
  end.

Definition sort_by_count (l : list (str * nat)) : list (str * nat) :=
  fold_left (fun acc e => insert_by_count e acc) l [].

(** Lines 184-205, with the focal [tag] found ([tag] is a string). *)
Definition getRelatedTags (images : list image) (tag : str) : list str :=
  let taggedImages := filter (fun img => existsb (str_eqb tag) (tags img)) images in
  let relatedTagsMap := count_tags tag taggedImages in
  map fst (firstn 5 (sort_by_count (obj_entries relatedTagsMap))).

(** ** Pagination ([ImageGrid.tsx]) *)

Definition imagesPerPage : nat := 24.

(** [String.prototype.toLowerCase] on ASCII text. *)
Definition to_lower (s : str) : str :=
  map (fun a => let n := nat_of_ascii a in
                if Nat.leb 65 n && Nat.leb n 90 then ascii_of_nat (n + 32) else a) s.

(** Lines 34-39. *)
Definition fixImageUrl (url : str) : str :=
  if negb (starts_with (lit "/images/") url) && negb (starts_with (lit "http") url)
  then lit "/images/" ++ url else url.

(** The props and catalog the grid reads. *)
Record grid_props : Type := {
  images : list image;
  searchTerm : str;
  selectedTags : list str
}.

Definition matches_filter (p : grid_props) (img : image) : bool :=
  let matchesSearch := includes (to_lower (searchTerm p)) (to_lower (caption img)) in
  let matchesTags :=
    Nat.eqb (length (selectedTags p)) 0
    || existsb (fun tag => existsb (str_eqb tag) (tags img)) (selectedTags p) in
  matchesSearch && matchesTags.

Definition fix_urls (img : image) : image :=
  {| img_id := img_id img; caption := caption img; description := description img;
     tags := tags img; slug := slug img; author := author img; title := title img;
     original_url := original_url img; png_url := fixImageUrl (png_url img);
     sticker_url := fixImageUrl (sticker_url img); created_at := created_at img |}.

(** Lines 42-56. *)
Definition getFilteredImages (p : grid_props) : list image :=
  map fix_urls (filter (matches_filter p) (images p)).

(** The component state: [displayedImages] and [currentPage]. *)
Record grid_state : Type := {
  displayedImages : list image;
  currentPage : nat
}.

Definition initial_state : grid_state := {| displayedImages := []; currentPage := 1 |}.

(** Lines 66-78 ([page] is 1 or [currentPage + 1], so at least 1). *)
Definition loadImages (page : nat) (imageSource : list image) (st : grid_state) : grid_state :=
  let startIndex := (page - 1) * imagesPerPage in
  let endIndex := startIndex + imagesPerPage in
  let newImages := list_slice startIndex endIndex imageSource in
  {| displayedImages := if Nat.eqb page 1 then newImages
                        else displayedImages st ++ newImages;
     currentPage := page |}.

(** Lines 81-85. *)
Definition loadMoreImages (p : grid_props) (st : grid_state) : grid_state :=
  let filteredImgs := getFilteredImages p in
  loadImages (currentPage st + 1) filteredImgs st.

(** Lines 160-161. *)
Definition hasMoreImages (p : grid_props) (st : grid_state) : bool :=
  Nat.ltb (currentPage st * imagesPerPage) (length (getFilteredImages p)).

(** Lines 164-185: the observer exists only while [hasMoreImages]; when
    the sentinel enters the viewport it calls [loadMoreImages]. *)
Definition growth_trigger (p : grid_props) (st : grid_state) : grid_state :=
  if hasMoreImages p st then loadMoreImages p st else st.

(** Lines 59-63: the effect run when [searchTerm] or [selectedTags] change. *)
Definition on_filter_change (p : grid_props) (st : grid_state) : grid_state :=
  let filteredImgs := getFilteredImages p in
  loadImages 1 filteredImgs st.

(** ** The related-tags contract, as the specification states it

    [related_occurrences]: the tags carried by the catalog assets that
    contain the focal tag, in catalog iteration order, without the focal
    tag and the catch-all tag, one entry per occurrence. *)
Definition related_occurrences (images : list image) (tag : str) : list str :=
  concat (map (fun img => filter (fun t => negb (str_eqb t tag) && negb (str_eqb t tag_others))
                                 (tags img))
              (filter (fun img => existsb (str_eqb tag) (tags img)) images)).

(** Co-occurrence frequency of [t]. *)
Definition count_in (t : str) (l : list str) : nat := length (filter (str_eqb t) l).

(** Position of the first occurrence of [t] ([length l] when absent). *)
Fixpoint index_of (t : str) (l : list str) : nat :=
  match l with
  | [] => 0
  | x :: l' => if str_eqb t x then 0 else S (index_of t l')
  end.

(** The distinct elements of [l] in order of first appearance. *)
Fixpoint first_seen (l : list str) : list str :=
  match l with
  | [] => []
  | x :: l' => x :: filter (fun y => negb (str_eqb x y)) (first_seen l')
  end.

(** The counter a correct tally of [l] holds: each distinct tag, in order
    of first appearance, with its number of occurrences. *)
Definition tally (l : list str) : jsobj nat := map (fun t => (t, count_in t l)) (first_seen l).

(** [x] ranks before [y]: higher frequency, or the same frequency and an
    earlier first appearance. *)
Definition ranks_before (occ : list str) (x y : str) : Prop :=
  count_in y occ < count_in x occ
  \/ (count_in x occ = count_in y occ /\ index_of x occ < index_of y occ).

(** The order a stable sort by descending count produces from a list in
    which [pos] increases: higher count first, then smaller [pos]. *)
Definition count_rank (pos : str * nat -> nat) (a b : str * nat) : Prop :=
  snd b < snd a \/ (snd a = snd b /\ pos a < pos b).

Definition tagged_image (ts : list string) : image := {|
  img_id := []; caption := []; description := []; tags := map lit ts;
  slug := []; author := []; title := []; original_url := [];
  png_url := []; sticker_url := []; created_at := [] |}.

(** The catalog of the specification's example. *)
Definition example_catalog : list image :=
  [tagged_image ["cat"]; tagged_image ["cat"; "birthday"]; tagged_image ["dog"]]%string.

(** A browser in which the direct link throws (no document body), the
    fetch is refused by CORS and the canvas is tainted; [window.open]
    succeeds or throws according to [open]. *)
Definition tainted_browser (open : bool) : browser := {|
  dom_ok := false;
  fetch_result := fun _ => FetchRejects;
  blob_result := fun _ => BlobResolves;
  img_load := fun _ => ImgLoaded;
  canvas_ctx := true;
  to_blob := fun _ => ToBlobThrows;
  open_ok := fun _ => open
|}.

(** A catalog of fifty assets that all pass an empty search with no tag
    filter. *)
Definition sample_image : image := {|
  img_id := lit "a"; caption := lit "a cat"; description := []; tags := [lit "cat"];
  slug := lit "a-cat"; author := []; title := []; original_url := [];
  png_url := lit "a.png"; sticker_url := lit "a-sticker.png"; created_at := [] |}.

Definition fifty_props : grid_props := {|
  images := repeat sample_image 50; searchTerm := []; selectedTags := [] |}.

(** ** Further code around the claims

    [TagPage] ([About.tsx], lines 144-248), the tag chips, the tag list,
    the card tags and the download button of [ImageGrid.tsx], and the
    detail view of [ImageDetail.tsx] (lines 194-508), which calls
    [downloadImage] and [triggerUnsplashDownload]. *)

(** *** Property reads on object literals

    A read [o[k]] on an ordinary object finds an own property, else a
    member inherited from [Object.prototype] (a function, or the prototype
    object itself for [__proto__]), else [undefined]. *)

Definition object_prototype_members : list str :=
  map lit ["constructor"; "__defineGetter__"; "__defineSetter__"; "hasOwnProperty";
           "__lookupGetter__"; "__lookupSetter__"; "isPrototypeOf";
           "propertyIsEnumerable"; "toString"; "valueOf"; "__proto__";
           "toLocaleString"]%string.

Inductive prop_read : Type :=
| ROwn (v : str)
| RInherited (k : str)
| RUndefined.

(** [o[k]] on a [Record<string, string>] object literal. *)
Definition record_read (o : jsobj str) (k : str) : prop_read :=
  match obj_get o k with
  | Some v => ROwn v
  | None => if existsb (str_eqb k) object_prototype_members then RInherited k else RUndefined
  end.

(** ToBoolean of the value read: the inherited members are objects. *)
Definition read_truthy (r : prop_read) : bool :=
  match r with
  | ROwn v => truthy (JStr v)
  | RInherited _ => true
  | RUndefined => false
  end.

(** ToString of the value read, as a template literal or a computed key
    converts it ([Function.prototype.toString] of a built-in gives its
    native-code text; [Object.prototype] itself gives [[object Object]]). *)
Definition read_to_string (r : prop_read) : str :=
  match r with
  | ROwn v => v
  | RInherited k =>
      if str_eqb k (lit "__proto__") then lit "[object Object]"
      else if str_eqb k (lit "constructor") then lit "function Object() { [native code] }"
      else lit "function " ++ k ++ lit "() { [native code] }"
  | RUndefined => lit "undefined"
  end.

(** *** [TagPage] *)

(** Lines 152-154: a leading [/] is dropped with [substring(1)]. *)
Definition tagpage_pathname (pathname : str) : str :=
  if starts_with (lit "/") pathname then skipn 1 pathname else pathname.

(** Line 159. *)
Definition tagpage_tag (pathname : str) : prop_read :=
  record_read SLUG_TO_TAG (tagpage_pathname pathname).

(** What [TagPage] renders for a location: [null] and a redirect to [/]
    (lines 164-171 and 220-224), the page for [tag] with the canonical
    link of line 236, or an exception thrown while rendering. *)
Inductive tagpage_view : Type :=
| TagRedirect
| TagRender (tag : prop_read) (canonical : str)
| TagThrows (e : jserror).

(** Line 231 calls [tag.charAt(0)]: a string has it, while an inherited
    member of [Object.prototype] (a function, or the prototype object for
    [__proto__]) has no [charAt], and the call throws a [TypeError]. *)
Definition TagPage (pathname : str) : tagpage_view :=
  let tag := tagpage_tag pathname in
  if negb (read_truthy tag) then TagRedirect
  else match tag with
       | ROwn _ =>
           TagRender tag (lit "https://clippng.online/"
                          ++ read_to_string (record_read TAG_TO_SLUG (read_to_string tag)))
       | RInherited _ | RUndefined => TagThrows TypeError
       end.

(** *** The tag chips and tag list of [ImageGrid] *)

(** Line 215: the chip of [tag] links to [/${TAG_TO_SLUG[tag]}] (the
    component's own copy of the table, lines 129-147, equal to the one of
    [About.tsx]). *)
Definition tag_chip_link (tag : str) : str :=
  lit "/" ++ read_to_string (record_read TAG_TO_SLUG tag).

(** [new Set(xs)]: the first occurrence of each element, in insertion
    order. *)
Definition set_add (s : list str) (x : str) : list str :=
  if existsb (str_eqb x) s then s else s ++ [x].

Definition set_of_list (l : list str) : list str := fold_left set_add l [].

Section AllTags.

(** [String.prototype.localeCompare], left abstract: it depends on the
    locale. *)
Variable localeCompare : str -> str -> Z.

(** Lines 121-126: the comparator. *)
Definition allTags_cmp (a b : str) : Z :=
  if str_eqb a tag_others then 1%Z
  else if str_eqb b tag_others then (-1)%Z
  else localeCompare a b.

(** [Array.prototype.sort] is stable; for a consistent comparator its
    result is the one of a stable insertion sort, in which an element is
    placed before the first already sorted element that compares greater. *)
Fixpoint insert_cmp (e : str) (l : list str) : list str :=
  match l with
  | [] => [e]
  | x :: l' => if Z.ltb 0 (allTags_cmp x e) then e :: l else x :: insert_cmp e l'
  end.

Definition sort_cmp (l : list str) : list str := fold_left (fun acc e => insert_cmp e acc) l [].

(** Lines 119-126. *)
Definition allTags (images : list image) : list str :=
  sort_cmp (set_of_list (flat_map tags images)).

End AllTags.

(** Lines 268-280: the first three tags of a card, and the [+n] badge
    shown when there are more. *)
Definition card_tags (img : image) : list str * option nat :=
  (list_slice 0 3 (tags img),
   if Nat.ltb 3 (length (tags img)) then Some (length (tags img) - 3) else None).

(** *** The download button of a grid card ([ImageGrid.tsx], lines 87-116) *)

(** Line 93: [images.find(...)]. *)
Definition find_image (url : str) (images : list image) : option image :=
  find (fun img => str_eqb (png_url img) url || str_eqb (fixImageUrl (png_url img)) url) images.

(** The analytics event [trackDownload(id, style)] (line 96), if any, and
    the filename passed to [downloadImage] (lines 100-101 and 108). *)
Definition grid_download_request (images : list image) (url : str) : option (str * str) * str :=
  match find_image url images with
  | Some imageObj =>
      (Some (img_id imageObj,
             if str_eqb url (sticker_url imageObj) then lit "outlined" else lit "transparent"),
       caption imageObj ++ lit "-transparent.png")
  | None => (None, lit "image-transparent.png")
  end.

(** [handleDownload(url)]: the event and the settled result of the
    pipeline. *)
Definition ImageGrid_handleDownload (env : browser) (images : list image) (url : str)
    : option (str * str) * (option bool * list strategy) :=
  let '(ev, filename) := grid_download_request images url in
  (ev, downloadImage env url filename).

(** *** The detail view ([ImageDetail.tsx], lines 194-508) *)

(** Fields of the catalog JSON the detail view reads beyond [ImageData];
    [None] is an absent field. *)
Record detail_fields : Type := {
  main_noun : option str;
  username : option str;
  unsplash_id : option str;
  photographer_url : option str
}.

(** [s.split(c)] with a one-character separator. *)
Fixpoint split_on (c : ascii) (s : str) : list str :=
  match s with
  | [] => [[]]
  | a :: s' =>
      if Ascii.eqb a c then [] :: split_on c s'
      else match split_on c s' with
           | w :: ws => (a :: w) :: ws
           | [] => [[a]]
           end
  end.

Definition skipWords : list str :=
  map lit ["a"; "an"; "the"; "small"; "large"; "big"; "tiny"; "huge"; "little"]%string.

Definition articles : list str := map lit ["a"; "an"; "the"]%string.

(** [a || b] on strings, [undefined] being [None]. *)
Definition or_str (a : option str) (b : str) : str :=
  match a with Some x => if truthy (JStr x) then x else b | None => b end.

(** Lines 224-265. *)
Definition getMainTag (image : image) (extra : detail_fields) : str :=
  let fallback :=
    if truthy (opt_str (main_noun extra)) then
      match main_noun extra with Some n => n | None => [] end
    else
      let titleWords := split_on " "%char (caption image) in
      let mainNoun := find (fun word => negb (existsb (str_eqb (to_lower word)) skipWords)) titleWords in
      let firstNonArticle := find (fun word => negb (existsb (str_eqb (to_lower word)) articles)) titleWords in
      or_str mainNoun (or_str firstNonArticle (or_str (hd_error titleWords) (lit "image"))) in
  match find (fun tag => negb (str_eqb tag tag_others)) (tags image) with
  | Some t => if truthy (JStr t) then t else fallback
  | None => fallback
  end.

Definition utm_query : str := lit "?utm_source=ClipPng&utm_medium=referral".

(** Lines 279-308: [photographerLink]. *)
Definition getAttributionLinks (extra : detail_fields) : str :=
  if truthy (opt_str (username extra)) then
    lit "https://unsplash.com/@" ++ js_to_string (opt_str (username extra)) ++ utm_query
  else if truthy (opt_str (unsplash_id extra)) then
    lit "https://unsplash.com/photos/" ++ js_to_string (opt_str (unsplash_id extra)) ++ utm_query
  else if truthy (opt_str (photographer_url extra)) then
    let baseUrl := match split_on "?"%char (match photographer_url extra with Some u => u | None => [] end) with
                   | w :: _ => w | [] => [] end in
    baseUrl ++ utm_query
  else if truthy (opt_str (username extra)) then
    lit "https://unsplash.com/@" ++ js_to_string (opt_str (username extra)) ++ utm_query
  else [].

Inductive image_style : Type := Transparent | Outlined.

Definition style_name (st : image_style) : str :=
  match st with Transparent => lit "transparent" | Outlined => lit "outlined" end.

(** Lines 316-323 (the component's [fixImageUrl], lines 216-221, is the
    one of [ImageGrid]). *)
Definition getImageUrl (image : image) (st : image_style) : str :=
  match st with
  | Outlined => fixImageUrl (sticker_url image)
  | Transparent => fixImageUrl (png_url image)
  end.

(** Lines 332-366: the analytics event, the notification scheduled with
    [setTimeout] (its outcome), and the settled result of the pipeline. *)
Record detail_download : Type := {
  dl_event : str * str;
  dl_notification : option (completion trigger_result);
  dl_pipeline : option bool * list strategy
}.

Definition ImageDetail_handleDownload (json_parse : str -> completion jsval) (env : browser)
    (image : image) (extra : detail_fields) (selectedStyle : image_style) : detail_download :=
  let downloadUrl := getImageUrl image selectedStyle in
  {| dl_event := (img_id image, style_name selectedStyle);
     dl_notification :=
       if truthy (JStr (img_id image)) && truthy (opt_str (unsplash_id extra)) then
         Some (triggerUnsplashDownload json_parse (TStr (or_str (unsplash_id extra) (img_id image))))
       else None;
     dl_pipeline := downloadImage env downloadUrl
                      (caption image ++ lit "-" ++ style_name selectedStyle ++ lit ".png") |}.

(** *** Predicates on the matcher and its captures *)

(** The characters [[i, j)] of [s] form a token of
    [[a-zA-Z0-9_-]{10,13}]. *)
Definition id_token_at (s : str) (i j : nat) : Prop :=
  10 <= j - i <= 13 /\ j <= length s /\ forallb is_id_char (str_slice i j s) = true.

(** A pattern without capture group. *)
Fixpoint no_group (r : regex) : bool :=
  match r with
  | RGroup _ => false
  | RSeq a b | RAlt a b => no_group a && no_group b
  | RRep a _ _ => no_group a
  | _ => true
  end.

(** *** Sample inputs for the further properties *)

(** A browser in which the direct link throws and the fetch gets an ok
    response whose body never arrives. *)
Definition stalled_browser : browser := {|
  dom_ok := false;
  fetch_result := fun _ => FetchStatus true;
  blob_result := fun _ => BlobPending;
  img_load := fun _ => ImgLoaded;
  canvas_ctx := true;
  to_blob := fun _ => ToBlobBlob;
  open_ok := fun _ => true
|}.

Definition cat_props : grid_props := {|
  images := example_catalog; searchTerm := []; selectedTags := [lit "cat"] |}.

Definition cat_dog_props : grid_props := {|
  images := example_catalog; searchTerm := []; selectedTags := [lit "cat"; lit "dog"] |}.

Definition one_image_props : grid_props := {|
  images := [sample_image]; searchTerm := []; selectedTags := [] |}.

Definition no_fields : detail_fields := {|
  main_noun := None; username := None; unsplash_id := None; photographer_url := None |}.

Definition photographer_fields : detail_fields := {|
  main_noun := None; username := None; unsplash_id := None;
  photographer_url := Some (lit "https://unsplash.com/@jo?ref=x") |}.

Definition unsplash_fields : detail_fields := {|
  main_noun := None; username := None; unsplash_id := Some (lit "abcDEF1234");
  photographer_url := None |}.

(** * Proofs *)

(** ** The matcher *)

Lemma re_match_rep_O r s i c k mn :
  re_match (RRep r mn 0) s i c k = if Nat.eqb mn 0 then k i c else None.
Proof. reflexivity. Qed.

Lemma re_match_rep_S r s i c k mn mx :
  re_match (RRep r mn (S mx)) s i c k =
  match re_match r s i c (fun i' c' => re_match (RRep r (pred mn) mx) s i' c' k) with
  | Some x => Some x
  | None => if Nat.eqb mn 0 then k i c else None
  end.
Proof. reflexivity. Qed.

Lemma re_match_class f s i c k :
  re_match (RClass f) s i c k =
  match nth_error s i with Some a => if f a then k (S i) c else None | None => None end.
Proof. reflexivity. Qed.

(** A greedy class repetition over a suffix made only of class characters,
    no longer than [max] and no shorter than [min], consumes the whole
    suffix. *)
Lemma rep_class_to_end f s k c v :
  k (length s) c = Some v ->
  forall n mx mn i,
    length s = i + n -> n <= mx -> mn <= n ->
    (forall j a, i <= j -> nth_error s j = Some a -> f a = true) ->
    re_match (RRep (RClass f) mn mx) s i c k = Some v.
Proof.
  intros Hk n. induction n as [|n IH]; intros mx mn i Hlen Hmx Hmn Hall.
  - assert (mn = 0) by lia. subst mn.
    replace i with (length s) by lia.
    destruct mx as [|mx].
    + rewrite re_match_rep_O. exact Hk.
    + rewrite re_match_rep_S, re_match_class.
      rewrite (proj2 (nth_error_None s (length s))) by lia. exact Hk.
  - destruct mx as [|mx]; [lia|].
    rewrite re_match_rep_S, re_match_class.
    destruct (nth_error s i) as [a|] eqn:Ha.
    + rewrite (Hall i a (le_n i) Ha).
      rewrite (IH mx (pred mn) (S i)); try lia; [reflexivity|].
      intros j b Hj Hb. apply (Hall j b); [lia|exact Hb].
    + apply nth_error_None in Ha. lia.
Qed.

Lemma forallb_nth_error {A} (f : A -> bool) l j a :
  forallb f l = true -> nth_error l j = Some a -> f a = true.
Proof.
  intros Hf Hj. rewrite forallb_forall in Hf. apply Hf.
  eapply nth_error_In. exact Hj.
Qed.

Lemma re_test_exact_shape s :
  10 <= length s <= 13 -> forallb is_id_char s = true -> re_test re_exact s = true.
Proof.
  intros Hlen Hall. unfold re_test, exec. cbn [exec_from].
  assert (Hm : re_match re_exact s 0 None accept = Some None).
  { unfold re_exact. cbn [re_match Nat.eqb].
    apply (rep_class_to_end is_id_char s _ None None) with (n := length s); try lia.
    - cbn [re_match]. rewrite Nat.eqb_refl. reflexivity.
    - intros j a _ Ha. exact (forallb_nth_error _ _ _ _ Hall Ha). }
  rewrite Hm. reflexivity.
Qed.

(** ** Claim C5 *)

(** C5: every string of 10 to 13 characters, each a letter, digit,
    underscore or hyphen, is returned unchanged by [extractUnsplashId]. *)
Theorem extractUnsplashId_canonical json_parse (imageId : str) :
  10 <= length imageId <= 13 ->
  forallb is_id_char imageId = true ->
  extractUnsplashId json_parse imageId = Normal (JStr imageId).
Proof.
  intros Hlen Hall. unfold extractUnsplashId.
  assert (Ht : truthy (JStr imageId) = true).
  { cbn. destruct (length imageId) eqn:E; [lia|reflexivity]. }
  rewrite Ht. cbn [negb]. rewrite (re_test_exact_shape imageId Hlen Hall). reflexivity.
Qed.

Lemma extractUnsplashId_canonical_witness :
  (10 <= length (lit "AbCdEfGhIjK") <= 13 /\ forallb is_id_char (lit "AbCdEfGhIjK") = true)
  /\ extractUnsplashId (fun _ => Throw SyntaxError) (lit "AbCdEfGhIjK")
     = Normal (JStr (lit "AbCdEfGhIjK")).
Proof.
  split.
  - split; [cbn; lia | reflexivity].
  - apply extractUnsplashId_canonical; [cbn; lia | reflexivity].
Defined.

(** ** Claim C4 *)

Lemma json_stage_normal json_parse s : exists o, json_stage json_parse s = Normal o.
Proof.
  unfold json_stage. destruct (_ && _); [|eauto].
  unfold try_catch, cbind.
  destruct (json_parse s) as [v|e]; [|eauto].
  destruct (get_prop v (lit "unsplash_id")); eauto.
Qed.

Lemma json_stage_parse_error json_parse s e :
  json_parse s = Throw e -> json_stage json_parse s = Normal None.
Proof.
  intros He. unfold json_stage. destruct (_ && _); [|reflexivity].
  rewrite He. reflexivity.
Qed.

Lemma extractUnsplashId_normal json_parse s :
  exists v, extractUnsplashId json_parse s = Normal v.
Proof.
  unfold extractUnsplashId.
  destruct (negb (truthy (JStr s))); [eauto|].
  destruct (re_test re_exact s); [eauto|].
  destruct (json_stage_normal json_parse s) as [o Ho]. rewrite Ho.
  destruct o; cbn; eauto.
Qed.

(** C4: [extractUnsplashId] never throws: every input, the empty string
    and unparsable [{...}] strings included, gives a normal completion; a
    [JSON.parse] failure falls through to the pattern strategies; and when
    no strategy matches the result is [null]. *)
Theorem extractUnsplashId_total json_parse (imageId : str) :
  (exists v, extractUnsplashId json_parse imageId = Normal v)
  /\ (forall e, imageId <> [] -> re_test re_exact imageId = false ->
      json_parse imageId = Throw e ->
      extractUnsplashId json_parse imageId = Normal (pattern_stage imageId))
  /\ (imageId = []
      \/ (re_test re_exact imageId = false
          /\ json_stage json_parse imageId = Normal None
          /\ try_patterns patterns imageId = None
          /\ exec re_general imageId = None) ->
      extractUnsplashId json_parse imageId = Normal JNull).
Proof.
  split; [|split].
  - apply extractUnsplashId_normal.
  - intros e Hne Hre Hparse. unfold extractUnsplashId.
    destruct imageId as [|a rest]; [congruence|]. cbn [truthy length negb Nat.eqb].
    rewrite Hre, (json_stage_parse_error json_parse _ e Hparse). reflexivity.
  - intros [Hnil | (Hre & Hjs & Hpat & Hgen)].
    + subst. reflexivity.
    + unfold extractUnsplashId. destruct (negb (truthy (JStr imageId))); [reflexivity|].
      rewrite Hre, Hjs. cbn. unfold pattern_stage. rewrite Hpat, Hgen. reflexivity.
Qed.

Lemma extractUnsplashId_total_witness :
  extractUnsplashId (fun _ => Throw SyntaxError) (lit "{not json}")
  = Normal (pattern_stage (lit "{not json}"))
  /\ extractUnsplashId (fun _ => Throw SyntaxError) (lit "{not json}") = Normal JNull.
Proof.
  split.
  - apply (proj1 (proj2 (extractUnsplashId_total (fun _ => Throw SyntaxError)
                            (lit "{not json}"))) SyntaxError);
      [discriminate | vm_compute; reflexivity | reflexivity].
  - apply (proj2 (proj2 (extractUnsplashId_total (fun _ => Throw SyntaxError)
                            (lit "{not json}")))).
    right. vm_compute. repeat split.
Defined.

(** ** Claim C1 *)

(** C1 (as written) fails: the string ["hello"] carries no download link
    and no provider ID, and [triggerUnsplashDownload] reports [false]
    rather than success. *)
Lemma triggerUnsplashDownload_unresolved_counterexample :
  includes (lit "/photos/") (lit "hello") && includes (lit "/download") (lit "hello") = false
  /\ extractUnsplashId (fun _ => Throw SyntaxError) (lit "hello") = Normal JNull
  /\ triggerUnsplashDownload (fun _ => Throw SyntaxError) (TStr (lit "hello"))
     <> Normal (true, []).
Proof.
  split; [reflexivity|split; [vm_compute; reflexivity|]].
  vm_compute. discriminate.
Qed.

(** C1 (amended): when the input yields neither a direct action URL (a
    truthy [download_location], or a string containing both [/photos/] and
    [/download]) nor a truthy provider ID from [extractUnsplashId], no
    request is dispatched and the call reports [false]; it does not throw. *)
Theorem triggerUnsplashDownload_unresolved json_parse (imageId : trigger_input) :
  match imageId with
  | TStr s =>
      includes (lit "/photos/") s && includes (lit "/download") s = false
      /\ (forall v, extractUnsplashId json_parse s = Normal v -> truthy v = false)
  | TObj id dl =>
      truthy (opt_str dl) = false
      /\ (forall i v, id = Some i -> extractUnsplashId json_parse i = Normal v ->
          truthy v = false)
  end ->
  triggerUnsplashDownload json_parse imageId = Normal (false, []).
Proof.
  unfold triggerUnsplashDownload, trigger_analyse.
  destruct imageId as [s | id dl]; intros [H1 H2].
  - rewrite H1.
    destruct (extractUnsplashId_normal json_parse s) as [v Hv].
    rewrite Hv. cbn. rewrite (H2 v Hv). reflexivity.
  - rewrite H1. destruct (truthy (opt_str id)) eqn:Eid.
    + destruct id as [i|]; [|reflexivity].
      destruct (extractUnsplashId_normal json_parse i) as [v Hv].
      rewrite Hv. cbn. rewrite (H2 i v eq_refl Hv). reflexivity.
    + reflexivity.
Qed.

Lemma triggerUnsplashDownload_unresolved_witness :
  triggerUnsplashDownload (fun _ => Throw SyntaxError) (TStr (lit "hello"))
  = Normal (false, []).
Proof.
  apply (triggerUnsplashDownload_unresolved (fun _ => Throw SyntaxError) (TStr (lit "hello"))).
  split; [reflexivity|].
  intros v Hv. vm_compute in Hv. injection Hv as <-. reflexivity.
Defined.

(** ** Claim C9 *)

Ltac nodup_small := repeat constructor; cbn; intuition discriminate.

(** C9: [downloadImage] calls its strategies in the order direct link,
    fetch-and-blob, canvas redraw, new tab: the strategies called form a
    prefix of that order, none twice; each one before the last reported
    failure, the pipeline's result is the last one's; so when the direct
    link succeeds, fetch is never called. *)
Theorem downloadImage_strategy_order env (url filename : str) :
  let u := processR2Url url in
  let trace := snd (downloadImage env url filename) in
  (exists n, 1 <= n <= 4
     /\ trace = firstn n strategy_order
     /\ NoDup trace
     /\ (forall j st, j < n - 1 -> nth_error strategy_order j = Some st ->
         run_strategy env st u filename = Some false)
     /\ (forall st, nth_error strategy_order (n - 1) = Some st ->
         fst (downloadImage env url filename) = run_strategy env st u filename))
  /\ (downloadImageWithLink env u filename = true -> ~ In SFetch trace).
Proof.
  cbn zeta. unfold downloadImage.
  destruct (downloadImageWithLink env (processR2Url url) filename) eqn:Hl.
  - split; [|intros _; cbn; intuition discriminate].
    exists 1. split; [lia|]. split; [reflexivity|]. split; [nodup_small|].
    split; [intros j st Hj; cbn in Hj; lia|].
    intros st Hst. injection Hst as <-. cbn. rewrite Hl. reflexivity.
  - split; [|intros H; discriminate].
    destruct (downloadImageWithFetch env (processR2Url url) filename) as [[|]|] eqn:Hf;
    [| destruct (downloadImageViaImgElement env (processR2Url url) filename)
         as [[|]|] eqn:Hi |].
    all: match goal with
         | |- exists n, _ /\ (snd (_, ?t)) = _ /\ _ => exists (length t)
         end.
    all: split; [cbn; lia|]; split; [reflexivity|]; split; [cbn; nodup_small|].
    all: split; [intros j st Hj Hst; cbn in Hj;
                 do 3 (destruct j as [|j];
                   [first [lia | injection Hst as <-; cbn;
                      first [rewrite Hl | rewrite Hf | rewrite Hi]; reflexivity]|]);
                 lia|].
    all: intros st Hst; injection Hst as <-; cbn;
         first [rewrite Hf | rewrite Hi | idtac]; reflexivity.
Qed.

Lemma downloadImage_strategy_order_witness :
  downloadImageWithLink {| dom_ok := true; fetch_result := fun _ => FetchRejects;
       blob_result := fun _ => BlobResolves; img_load := fun _ => ImgLoaded; canvas_ctx := true;
       to_blob := fun _ => ToBlobThrows; open_ok := fun _ => true |}
       (processR2Url (lit "https://x.r2.dev/a.png")) (lit "a.png") = true
  /\ ~ In SFetch (snd (downloadImage {| dom_ok := true; fetch_result := fun _ => FetchRejects;
       blob_result := fun _ => BlobResolves; img_load := fun _ => ImgLoaded; canvas_ctx := true;
       to_blob := fun _ => ToBlobThrows; open_ok := fun _ => true |}
       (lit "https://x.r2.dev/a.png") (lit "a.png"))).
Proof.
  split; [reflexivity|].
  apply (proj2 (downloadImage_strategy_order _ (lit "https://x.r2.dev/a.png") (lit "a.png"))).
  reflexivity.
Defined.

(** ** Claim C3 *)

(** C3 (as written) fails: when the direct link, the fetch and the canvas
    export all fail and [window.open] throws, [downloadImage] resolves
    [false]. *)
Lemma downloadImage_fallback_counterexample :
  downloadImageWithLink (tainted_browser false) (lit "https://x.r2.dev/a.png") (lit "a.png") = false
  /\ downloadImageWithFetch (tainted_browser false) (lit "https://x.r2.dev/a.png") (lit "a.png") = Some false
  /\ downloadImageViaImgElement (tainted_browser false) (lit "https://x.r2.dev/a.png") (lit "a.png") = Some false
  /\ fst (downloadImage (tainted_browser false) (lit "https://x.r2.dev/a.png") (lit "a.png"))
     <> Some true.
Proof.
  split; [reflexivity|split; [reflexivity|split; [reflexivity|]]].
  vm_compute. discriminate.
Qed.

(** C3 (amended): when the direct link, the fetch and the canvas redraw
    all report failure, [downloadImage] calls all four strategies once, in
    order, and resolves to the new-tab strategy's result: [true] whenever
    [window.open] does not throw, [false] when it throws. *)
Theorem downloadImage_fallback env (url filename : str) :
  let u := processR2Url url in
  downloadImageWithLink env u filename = false ->
  downloadImageWithFetch env u filename = Some false ->
  downloadImageViaImgElement env u filename = Some false ->
  downloadImage env url filename
    = (Some (downloadImageWithWindow env u), [SLink; SFetch; SImg; SWindow])
  /\ (open_ok env u = true -> fst (downloadImage env url filename) = Some true).
Proof.
  cbn zeta. intros Hl Hf Hi.
  assert (E : downloadImage env url filename
              = (Some (downloadImageWithWindow env (processR2Url url)),
                 [SLink; SFetch; SImg; SWindow])).
  { unfold downloadImage. rewrite Hl, Hf, Hi. reflexivity. }
  split; [exact E|].
  intros Ho. rewrite E. cbn. unfold downloadImageWithWindow. rewrite Ho. reflexivity.
Qed.

Lemma downloadImage_fallback_witness :
  fst (downloadImage (tainted_browser true) (lit "http://x.r2.dev/a.png") (lit "a.png"))
  = Some true.
Proof.
  apply (proj2 (downloadImage_fallback (tainted_browser true)
                  (lit "http://x.r2.dev/a.png") (lit "a.png")
                  eq_refl eq_refl eq_refl)).
  reflexivity.
Defined.

(** ** Claim C6 *)

Lemma str_eqb_eq a b : str_eqb a b = true <-> a = b.
Proof.
  revert b. induction a as [|x a IH]; intros [|y b]; cbn; try (split; congruence).
  rewrite andb_true_iff, IH, Ascii.eqb_eq. split.
  - intros [-> ->]. reflexivity.
  - intros H. injection H as -> ->. auto.
Qed.

Lemma obj_get_In {V} (o : jsobj V) k v : obj_get o k = Some v -> In (k, v) o.
Proof.
  induction o as [|[k' v'] o IH]; cbn; [discriminate|].
  destruct (str_eqb k k') eqn:E.
  - intros H. injection H as <-. apply str_eqb_eq in E. subst. left. reflexivity.
  - intros H. right. auto.
Qed.

(** The two tables checked entry by entry. *)
Lemma slug_to_tag_entries :
  forallb (fun e => match obj_get SLUG_TO_TAG (snd e) with
                    | Some t => str_eqb t (fst e) | None => false end) TAG_TO_SLUG = true
  /\ forallb (fun e => match obj_get TAG_TO_SLUG (snd e) with
                       | Some s => str_eqb s (fst e) | None => false end) SLUG_TO_TAG = true.
Proof. split; vm_compute; reflexivity. Qed.

(** C6: [TAG_TO_SLUG] and the derived [SLUG_TO_TAG] are mutual inverses:
    every tag's slug maps back to the tag, and every slug of the derived
    table maps, through [TAG_TO_SLUG], back to the slug. *)
Theorem tag_slug_inverse :
  (forall tag slug, obj_get TAG_TO_SLUG tag = Some slug -> obj_get SLUG_TO_TAG slug = Some tag)
  /\ (forall slug tag, obj_get SLUG_TO_TAG slug = Some tag -> obj_get TAG_TO_SLUG tag = Some slug).
Proof.
  destruct slug_to_tag_entries as [H1 H2]. rewrite forallb_forall in H1, H2.
  split.
  - intros tag slug Hg. apply obj_get_In in Hg.
    specialize (H1 _ Hg). cbv beta delta [fst snd] iota in H1.
    destruct (obj_get SLUG_TO_TAG slug) as [t|]; [|discriminate].
    apply str_eqb_eq in H1. subst. reflexivity.
  - intros slug tag Hg. apply obj_get_In in Hg.
    specialize (H2 _ Hg). cbv beta delta [fst snd] iota in H2.
    destruct (obj_get TAG_TO_SLUG tag) as [s|]; [|discriminate].
    apply str_eqb_eq in H2. subst. reflexivity.
Qed.

Lemma tag_slug_inverse_witness :
  obj_get SLUG_TO_TAG (lit "cat-clipart") = Some (lit "cat")
  /\ obj_get TAG_TO_SLUG (lit "others") = Some (lit "other-png").
Proof.
  split.
  - apply (proj1 tag_slug_inverse). vm_compute. reflexivity.
  - apply (proj2 tag_slug_inverse). vm_compute. reflexivity.
Defined.

(** ** Pagination: claims C7, C8, C10 *)

Lemma firstn_app_firstn_skipn {A} (a b : nat) (l : list A) :
  firstn a l ++ firstn b (skipn a l) = firstn (a + b) l.
Proof.
  revert l. induction a as [|a IH]; intros l; [reflexivity|].
  destruct l as [|x l]; cbn.
  - destruct b; reflexivity.
  - f_equal. apply IH.
Qed.

Lemma firstn_min {A} (k : nat) (l : list A) : firstn (Nat.min k (length l)) l = firstn k l.
Proof.
  destruct (Nat.le_ge_cases k (length l)) as [H|H].
  - rewrite Nat.min_l by exact H. reflexivity.
  - rewrite Nat.min_r by exact H. rewrite !firstn_all2 by lia. reflexivity.
Qed.

(** After the first page and [n] calls of [loadMoreImages] with the props
    held fixed, the window is the first [(n + 1) * 24] filtered assets. *)
Lemma iter_load_more p st0 n :
  let st := Nat.iter n (loadMoreImages p) (loadImages 1 (getFilteredImages p) st0) in
  currentPage st = S n
  /\ displayedImages st = firstn (S n * imagesPerPage) (getFilteredImages p).
Proof.
  cbn zeta. induction n as [|n [IHp IHd]].
  - split; reflexivity.
  - rewrite Nat.iter_succ.
    set (st := Nat.iter n (loadMoreImages p) (loadImages 1 (getFilteredImages p) st0)) in *.
    unfold loadMoreImages, loadImages. cbn [currentPage displayedImages]. rewrite IHp.
    replace (S n + 1 =? 1) with false by (symmetry; apply Nat.eqb_neq; lia).
    split; [lia|]. rewrite IHd. unfold list_slice.
    replace (S n + 1 - 1) with (S n) by lia.
    replace (S n * imagesPerPage + imagesPerPage - S n * imagesPerPage) with imagesPerPage by lia.
    rewrite firstn_app_firstn_skipn. f_equal. unfold imagesPerPage. lia.
Qed.

(** C10: starting from page 1 and applying any number of [loadMoreImages]
    with the filter fixed, the displayed list is exactly the first
    [min (currentPage * 24, total)] filtered assets, in catalog order. *)
Theorem load_more_window_is_prefix p st0 n :
  let st := Nat.iter n (loadMoreImages p) (loadImages 1 (getFilteredImages p) st0) in
  currentPage st = S n
  /\ displayedImages st
     = firstn (Nat.min (currentPage st * imagesPerPage) (length (getFilteredImages p)))
              (getFilteredImages p).
Proof.
  cbn zeta. destruct (iter_load_more p st0 n) as [Hp Hd].
  split; [exact Hp|]. rewrite Hd, Hp, firstn_min. reflexivity.
Qed.

(** C8: the filter-change effect resets the window to page 1 and shows
    the first 24 (or fewer) assets of the new filtered set, whatever the
    previous state. *)
Theorem filter_change_resets_window p st :
  on_filter_change p st
  = {| displayedImages := firstn imagesPerPage (getFilteredImages p); currentPage := 1 |}.
Proof. reflexivity. Qed.

(** C7: with 50 filtered assets, page 1 and then two [loadMoreImages]
    show 24, 48 and 50 assets, each window extending the previous one;
    the sentinel observer is active (growth triggers call
    [loadMoreImages]) while fewer than 50 are shown and is gone once all
    50 are, so a further trigger changes nothing. *)
Theorem pagination_fifty p :
  length (getFilteredImages p) = 50 ->
  let s1 := loadImages 1 (getFilteredImages p) initial_state in
  let s2 := loadMoreImages p s1 in
  let s3 := loadMoreImages p s2 in
  length (displayedImages s1) = 24
  /\ length (displayedImages s2) = 48
  /\ length (displayedImages s3) = 50
  /\ (exists l, displayedImages s2 = displayedImages s1 ++ l)
  /\ (exists l, displayedImages s3 = displayedImages s2 ++ l)
  /\ hasMoreImages p s1 = true
  /\ hasMoreImages p s2 = true
  /\ hasMoreImages p s3 = false
  /\ growth_trigger p s1 = s2
  /\ growth_trigger p s2 = s3
  /\ growth_trigger p s3 = s3.
Proof.
  intros H50. cbn zeta.
  destruct (iter_load_more p initial_state 0) as [_ D1].
  destruct (iter_load_more p initial_state 1) as [_ D2].
  destruct (iter_load_more p initial_state 2) as [_ D3].
  unfold Nat.iter in D1, D2, D3. cbn [nat_rect] in D1, D2, D3.
  assert (M1 : hasMoreImages p (loadImages 1 (getFilteredImages p) initial_state) = true).
  { unfold hasMoreImages. rewrite H50. reflexivity. }
  assert (M2 : hasMoreImages p (loadMoreImages p (loadImages 1 (getFilteredImages p) initial_state)) = true).
  { unfold hasMoreImages. rewrite H50. reflexivity. }
  assert (M3 : hasMoreImages p (loadMoreImages p (loadMoreImages p
                 (loadImages 1 (getFilteredImages p) initial_state))) = false).
  { unfold hasMoreImages. rewrite H50. reflexivity. }
  split; [rewrite D1, length_firstn, H50; reflexivity|].
  split; [rewrite D2, length_firstn, H50; reflexivity|].
  split; [rewrite D3, length_firstn, H50; reflexivity|].
  split; [eexists; reflexivity|].
  split; [eexists; reflexivity|].
  split; [exact M1|]. split; [exact M2|]. split; [exact M3|].
  unfold growth_trigger. rewrite M1, M2, M3. auto.
Qed.

Lemma pagination_fifty_witness :
  length (displayedImages (loadMoreImages fifty_props (loadMoreImages fifty_props
            (loadImages 1 (getFilteredImages fifty_props) initial_state)))) = 50.
Proof.
  apply (pagination_fifty fifty_props). vm_compute. reflexivity.
Defined.

(** ** Claim C2 *)

(** C2 (as written) fails: ["b"] and ["2"] both co-occur once with
    ["cat"] and ["b"] appears first, yet ["2"] comes first, because
    [Object.entries] lists array-index keys before the other keys. *)
Lemma getRelatedTags_index_key_counterexample :
  related_occurrences [tagged_image ["cat"; "b"; "2"]%string] (lit "cat") = [lit "b"; lit "2"]
  /\ getRelatedTags [tagged_image ["cat"; "b"; "2"]%string] (lit "cat") = [lit "2"; lit "b"]
  /\ getRelatedTags [tagged_image ["cat"; "b"; "2"]%string] (lit "cat") <> [lit "b"; lit "2"].
Proof.
  split; [vm_compute; reflexivity|].
  split; [vm_compute; reflexivity|].
  vm_compute. discriminate.
Qed.

(** *** The counter is the tally of the co-occurrence sequence *)

Lemma str_eqb_refl a : str_eqb a a = true.
Proof. apply str_eqb_eq. reflexivity. Qed.

Lemma str_eqb_sym a b : str_eqb a b = str_eqb b a.
Proof.
  destruct (str_eqb a b) eqn:E1, (str_eqb b a) eqn:E2; auto.
  - apply str_eqb_eq in E1. subst. rewrite str_eqb_refl in E2. discriminate.
  - apply str_eqb_eq in E2. subst. rewrite str_eqb_refl in E1. discriminate.
Qed.

Lemma existsb_str_In x l : existsb (str_eqb x) l = true <-> In x l.
Proof.
  rewrite existsb_exists. split.
  - intros [y [Hy E]]. apply str_eqb_eq in E. subst. exact Hy.
  - intros H. exists x. split; [exact H | apply str_eqb_refl].
Qed.

Lemma fold_left_filter {A B} (c : B -> bool) (f : A -> B -> A) l a :
  fold_left (fun acc x => if c x then f acc x else acc) l a = fold_left f (filter c l) a.
Proof.
  revert a. induction l as [|x l IH]; intros a; [reflexivity|].
  cbn. destruct (c x); cbn; apply IH.
Qed.

Lemma count_tags_occurrences images tag :
  count_tags tag (filter (fun img => existsb (str_eqb tag) (tags img)) images)
  = fold_left bump (related_occurrences images tag) [].
Proof.
  unfold count_tags, related_occurrences.
  generalize (@nil (str * nat)).
  induction (filter (fun img => existsb (str_eqb tag) (tags img)) images) as [|img l IH];
    intros a; [reflexivity|].
  cbn [fold_left map concat]. rewrite fold_left_app, <- IH.
  f_equal. apply fold_left_filter.
Qed.

Lemma count_in_snoc t p x :
  count_in t (p ++ [x]) = count_in t p + (if str_eqb t x then 1 else 0).
Proof.
  unfold count_in. rewrite filter_app, length_app. cbn.
  destruct (str_eqb t x); reflexivity.
Qed.

Lemma count_in_not_In t p : ~ In t p -> count_in t p = 0.
Proof.
  intros H. unfold count_in. induction p as [|y p IH]; [reflexivity|].
  cbn. destruct (str_eqb t y) eqn:E.
  - apply str_eqb_eq in E. subst. exfalso. apply H. left. reflexivity.
  - apply IH. intros Hin. apply H. right. exact Hin.
Qed.

Lemma In_first_seen t l : In t (first_seen l) <-> In t l.
Proof.
  induction l as [|x l IH]; cbn; [tauto|].
  rewrite filter_In, IH. split.
  - intros [H | [H _]]; auto.
  - intros [H | H]; [auto|].
    destruct (str_eqb x t) eqn:E.
    + left. apply str_eqb_eq. exact E.
    + right. split; [exact H | reflexivity].
Qed.

Lemma NoDup_first_seen l : NoDup (first_seen l).
Proof.
  induction l as [|x l IH]; cbn; constructor.
  - rewrite filter_In. intros [_ H]. rewrite str_eqb_refl in H. discriminate.
  - apply NoDup_filter. exact IH.
Qed.

Lemma first_seen_snoc p x :
  first_seen (p ++ [x])
  = if existsb (str_eqb x) p then first_seen p else first_seen p ++ [x].
Proof.
  induction p as [|a p IH]; [reflexivity|].
  cbn [app first_seen existsb]. rewrite IH.
  destruct (str_eqb x a) eqn:Exa; cbn [orb].
  - apply str_eqb_eq in Exa. subst.
    destruct (existsb (str_eqb a) p); [reflexivity|].
    rewrite filter_app. cbn. rewrite str_eqb_refl. cbn. rewrite app_nil_r. reflexivity.
  - destruct (existsb (str_eqb x) p); [reflexivity|].
    rewrite filter_app. cbn. rewrite str_eqb_sym, Exa. reflexivity.
Qed.

Lemma obj_get_map (f : str -> nat) L x :
  obj_get (map (fun t => (t, f t)) L) x = if existsb (str_eqb x) L then Some (f x) else None.
Proof.
  induction L as [|y L IH]; [reflexivity|].
  cbn. destruct (str_eqb x y) eqn:E; [|exact IH].
  apply str_eqb_eq in E. subst. reflexivity.
Qed.

Lemma obj_set_map_in (f : str -> nat) L x v :
  NoDup L -> In x L ->
  obj_set (map (fun t => (t, f t)) L) x v
  = map (fun t => (t, if str_eqb x t then v else f t)) L.
Proof.
  induction L as [|y L IH]; intros Hnd Hin; [destruct Hin|].
  inversion Hnd as [|? ? Hy Hnd']; subst.
  cbn. destruct (str_eqb x y) eqn:E.
  - apply str_eqb_eq in E. subst. f_equal.
    apply map_ext_in. intros t Ht. destruct (str_eqb y t) eqn:E'; [|reflexivity].
    apply str_eqb_eq in E'. subst. contradiction.
  - f_equal. apply IH; [exact Hnd'|].
    destruct Hin as [Hin|Hin]; [|exact Hin].
    subst. rewrite str_eqb_refl in E. discriminate.
Qed.

Lemma obj_set_map_notin (f : str -> nat) L x v :
  ~ In x L ->
  obj_set (map (fun t => (t, f t)) L) x v = map (fun t => (t, f t)) L ++ [(x, v)].
Proof.
  induction L as [|y L IH]; intros Hin; [reflexivity|].
  cbn. destruct (str_eqb x y) eqn:E.
  - apply str_eqb_eq in E. subst. exfalso. apply Hin. left. reflexivity.
  - f_equal. apply IH. intros H. apply Hin. right. exact H.
Qed.

Lemma bump_tally p x : bump (tally p) x = tally (p ++ [x]).
Proof.
  unfold bump, tally. rewrite obj_get_map, first_seen_snoc.
  assert (Eq : existsb (str_eqb x) (first_seen p) = existsb (str_eqb x) p).
  { apply eq_true_iff_eq. rewrite !existsb_str_In. apply In_first_seen. }
  rewrite <- Eq.
  destruct (existsb (str_eqb x) (first_seen p)) eqn:E1; rewrite Eq in E1;
  pose proof E1 as E2; rewrite <- Eq in E1.
  - rewrite obj_set_map_in; [| apply NoDup_first_seen | apply existsb_str_In; exact E1].
    apply map_ext. intros t. rewrite count_in_snoc, (str_eqb_sym t x).
    destruct (str_eqb x t) eqn:E.
    + apply str_eqb_eq in E. subst. reflexivity.
    + rewrite Nat.add_0_r. reflexivity.
  - rewrite obj_set_map_notin
      by (rewrite <- existsb_str_In; rewrite E1; discriminate).
    rewrite map_app. cbn. f_equal.
    + apply map_ext_in. intros t Ht. rewrite count_in_snoc.
      destruct (str_eqb t x) eqn:E; [|rewrite Nat.add_0_r; reflexivity].
      apply str_eqb_eq in E. subst.
      apply existsb_str_In in Ht. congruence.
    + rewrite count_in_snoc, str_eqb_refl, count_in_not_In; [reflexivity|].
      intros H. apply existsb_str_In in H. congruence.
Qed.

Lemma fold_bump_tally l : fold_left bump l [] = tally l.
Proof.
  induction l as [|l x IH] using rev_ind; [reflexivity|].
  rewrite fold_left_app, IH. cbn. apply bump_tally.
Qed.

(** *** Strongly sorted lists *)

Lemma SS_mono {A} (R R' : A -> A -> Prop) l :
  (forall x y, In x l -> In y l -> R x y -> R' x y) ->
  StronglySorted R l -> StronglySorted R' l.
Proof.
  induction l as [|a l IH]; intros Himp Hs; [constructor|].
  apply StronglySorted_inv in Hs as [Hs Hf]. constructor.
  - apply IH; [|exact Hs]. intros x y Hx Hy. apply Himp; right; assumption.
  - rewrite Forall_forall in *. intros y Hy. apply Himp; [left; reflexivity|right; exact Hy|].
    apply Hf. exact Hy.
Qed.

Lemma SS_filter {A} (R : A -> A -> Prop) (f : A -> bool) l :
  StronglySorted R l -> StronglySorted R (filter f l).
Proof.
  induction l as [|a l IH]; intros Hs; [constructor|].
  apply StronglySorted_inv in Hs as [Hs Hf]. cbn. destruct (f a).
  - constructor; [apply IH; exact Hs|].
    rewrite Forall_forall in *. intros y Hy. apply filter_In in Hy. apply Hf, Hy.
  - apply IH. exact Hs.
Qed.

Lemma SS_map {A B} (R : B -> B -> Prop) (f : A -> B) l :
  StronglySorted (fun x y => R (f x) (f y)) l -> StronglySorted R (map f l).
Proof.
  induction l as [|a l IH]; intros Hs; [constructor|].
  apply StronglySorted_inv in Hs as [Hs Hf]. cbn. constructor; [apply IH; exact Hs|].
  rewrite Forall_forall in *. intros y Hy. apply in_map_iff in Hy as (x & <- & Hx).
  apply Hf. exact Hx.
Qed.

Lemma SS_app_inv {A} (R : A -> A -> Prop) l1 l2 :
  StronglySorted R (l1 ++ l2) ->
  StronglySorted R l1 /\ StronglySorted R l2 /\ (forall x y, In x l1 -> In y l2 -> R x y).
Proof.
  induction l1 as [|a l1 IH]; intros Hs; cbn in Hs.
  - split; [constructor|]. split; [exact Hs|]. intros x y [].
  - apply StronglySorted_inv in Hs as [Hs Hf]. destruct (IH Hs) as (H1 & H2 & H3).
    rewrite Forall_forall in Hf. split; [|split; [exact H2|]].
    + constructor; [exact H1|]. rewrite Forall_forall. intros y Hy. apply Hf.
      apply in_or_app. left. exact Hy.
    + intros x y [<- | Hx] Hy; [apply Hf, in_or_app; right; exact Hy|].
      apply H3; assumption.
Qed.

Lemma SS_nth {A} (R : A -> A -> Prop) l i j x y :
  StronglySorted R l -> i < j -> nth_error l i = Some x -> nth_error l j = Some y -> R x y.
Proof.
  revert i j. induction l as [|a l IH]; intros i j Hs Hij Hi Hj.
  - destruct i; discriminate.
  - apply StronglySorted_inv in Hs as [Hs Hf]. rewrite Forall_forall in Hf.
    destruct j as [|j]; [lia|]. cbn in Hj.
    destruct i as [|i]; cbn in Hi.
    + injection Hi as <-. apply Hf. eapply nth_error_In. exact Hj.
    + apply (IH i j); [exact Hs | lia | exact Hi | exact Hj].
Qed.

(** *** The stable insertion sort *)

Lemma insert_by_count_perm e l : Permutation (insert_by_count e l) (e :: l).
Proof.
  induction l as [|e' l IH]; cbn; [reflexivity|].
  destruct (snd e <=? snd e'); [|reflexivity].
  rewrite IH. apply perm_swap.
Qed.

Lemma insert_by_count_sorted pos e l :
  StronglySorted (count_rank pos) l -> Forall (fun x => pos x < pos e) l ->
  StronglySorted (count_rank pos) (insert_by_count e l).
Proof.
  induction l as [|e' l IH]; intros Hs Hpos; cbn.
  - repeat constructor.
  - apply StronglySorted_inv in Hs as [Hs Hf]. inversion Hpos as [|? ? He' Hpos']; subst.
    destruct (snd e <=? snd e') eqn:Hle.
    + apply Nat.leb_le in Hle. constructor; [apply IH; assumption|].
      eapply Permutation_Forall; [symmetry; apply insert_by_count_perm|].
      constructor; [|exact Hf].
      unfold count_rank. lia.
    + apply Nat.leb_gt in Hle. constructor; [constructor; assumption|].
      constructor; [unfold count_rank; lia|].
      rewrite Forall_forall in *. intros z Hz. specialize (Hf z Hz).
      unfold count_rank in *. lia.
Qed.

Lemma sort_fold_sorted_perm pos L acc :
  StronglySorted (count_rank pos) acc ->
  StronglySorted (fun a b => pos a < pos b) L ->
  (forall x y, In x acc -> In y L -> pos x < pos y) ->
  StronglySorted (count_rank pos) (fold_left (fun acc e => insert_by_count e acc) L acc)
  /\ Permutation (fold_left (fun acc e => insert_by_count e acc) L acc) (acc ++ L).
Proof.
  revert acc. induction L as [|e L IH]; intros acc Hacc HL Hlt; cbn.
  - rewrite app_nil_r. split; [exact Hacc | reflexivity].
  - apply StronglySorted_inv in HL as [HL Hf]. rewrite Forall_forall in Hf.
    destruct (IH (insert_by_count e acc)) as [H1 H2]; [| exact HL | |].
    + apply insert_by_count_sorted; [exact Hacc|].
      rewrite Forall_forall. intros x Hx. apply Hlt; [exact Hx | left; reflexivity].
    + intros x y Hx Hy.
      apply (Permutation_in _ (insert_by_count_perm e acc)) in Hx as [<- | Hx].
      * apply Hf. exact Hy.
      * apply Hlt; [exact Hx | right; exact Hy].
    + split; [exact H1|]. rewrite H2, insert_by_count_perm.
      apply Permutation_middle.
Qed.

Lemma sort_by_count_sorted_perm pos L :
  StronglySorted (fun a b => pos a < pos b) L ->
  StronglySorted (count_rank pos) (sort_by_count L) /\ Permutation (sort_by_count L) L.
Proof.
  intros HL. apply (sort_fold_sorted_perm pos L []); [constructor | exact HL | intros x y []].
Qed.

(** *** First appearance *)

Lemma index_of_cons_neq t a l : str_eqb a t = false -> index_of t (a :: l) = S (index_of t l).
Proof. intros H. cbn. rewrite str_eqb_sym, H. reflexivity. Qed.

Lemma first_seen_index_sorted occ :
  StronglySorted (fun x y => index_of x occ < index_of y occ) (first_seen occ).
Proof.
  induction occ as [|a l IH]; cbn [first_seen]; [constructor|].
  constructor.
  - apply (SS_mono (fun x y => index_of x l < index_of y l)); [|apply SS_filter; exact IH].
    intros x y Hx Hy Hxy. apply filter_In in Hx as [_ Hx]. apply filter_In in Hy as [_ Hy].
    apply negb_true_iff in Hx, Hy.
    rewrite (index_of_cons_neq x a l Hx), (index_of_cons_neq y a l Hy). lia.
  - rewrite Forall_forall. intros y Hy. apply filter_In in Hy as [_ Hy].
    apply negb_true_iff in Hy. rewrite (index_of_cons_neq y a l Hy).
    cbn. rewrite str_eqb_refl. lia.
Qed.

Lemma tally_pos_sorted occ :
  StronglySorted (fun e1 e2 => index_of (fst e1) occ < index_of (fst e2) occ) (tally occ).
Proof.
  unfold tally. apply SS_map. cbn. apply first_seen_index_sorted.
Qed.

Lemma In_tally e occ : In e (tally occ) -> snd e = count_in (fst e) occ /\ In (fst e) (first_seen occ).
Proof.
  unfold tally. intros H. apply in_map_iff in H as (t & <- & Ht). cbn. auto.
Qed.

Lemma map_fst_tally occ : map fst (tally occ) = first_seen occ.
Proof. unfold tally. rewrite map_map. apply map_id. Qed.

Lemma In_related_occurrences images tag t :
  In t (related_occurrences images tag) ->
  exists img, In img images /\ In t (tags img) /\ t <> tag /\ t <> tag_others.
Proof.
  unfold related_occurrences. intros H.
  apply in_concat in H as (l & Hl & Ht). apply in_map_iff in Hl as (img & <- & Himg).
  apply filter_In in Himg as [Himg _]. apply filter_In in Ht as [Ht Hc].
  apply andb_true_iff in Hc as [H1 H2]. apply negb_true_iff in H1, H2.
  exists img. repeat split; try assumption.
  - intros ->. rewrite str_eqb_refl in H1. discriminate.
  - intros ->. rewrite str_eqb_refl in H2. discriminate.
Qed.

Lemma obj_entries_no_index {V} (o : jsobj V) :
  Forall (fun e => is_array_index (fst e) = false) o -> obj_entries o = o.
Proof.
  intros H. unfold obj_entries.
  replace (filter (fun e => is_array_index (fst e)) o) with (@nil (str * V)).
  - cbn. induction o as [|e o IH]; [reflexivity|].
    inversion H as [|? ? He H']; subst. cbn. rewrite He. cbn. f_equal. apply IH. exact H'.
  - induction o as [|e o IH]; [reflexivity|].
    inversion H as [|? ? He H']; subst. cbn. rewrite He. apply IH. exact H'.
Qed.

(** Without array-index tags, [getRelatedTags] is the first five of the
    stable count sort of the tally of the co-occurrence sequence. *)
Lemma getRelatedTags_tally images tag :
  (forall img t, In img images -> In t (tags img) -> is_array_index t = false) ->
  getRelatedTags images tag
  = map fst (firstn 5 (sort_by_count (tally (related_occurrences images tag)))).
Proof.
  intros Hidx. unfold getRelatedTags.
  rewrite count_tags_occurrences, fold_bump_tally, obj_entries_no_index; [reflexivity|].
  rewrite Forall_forall. intros e He. apply In_tally in He as [_ He].
  apply In_first_seen, In_related_occurrences in He as (img & Himg & Ht & _).
  exact (Hidx img (fst e) Himg Ht).
Qed.

Lemma count_rank_ranks_before occ e1 e2 :
  snd e1 = count_in (fst e1) occ -> snd e2 = count_in (fst e2) occ ->
  count_rank (fun e => index_of (fst e) occ) e1 e2 -> ranks_before occ (fst e1) (fst e2).
Proof. unfold count_rank, ranks_before. intros -> ->. tauto. Qed.

(** C2 (amended): for a catalog none of whose tags is an array-index
    string (such as ["2"]), the related tags of a focal tag are distinct
    co-occurring tags other than the focal tag and ["others"], as many as
    [min 5 (number of distinct co-occurring tags)], in strictly descending
    frequency with ties in order of first appearance, and every
    co-occurring tag left out ranks after every tag returned; on the
    specification's example catalog the result for ["cat"] is
    [["birthday"]]. *)
Theorem getRelatedTags_top5 :
  (forall images tag,
     (forall img t, In img images -> In t (tags img) -> is_array_index t = false) ->
     let occ := related_occurrences images tag in
     let R := getRelatedTags images tag in
     NoDup R
     /\ length R = Nat.min 5 (length (first_seen occ))
     /\ (forall t, In t R -> In t occ /\ t <> tag /\ t <> tag_others)
     /\ (forall i j x y, i < j -> nth_error R i = Some x -> nth_error R j = Some y ->
         ranks_before occ x y)
     /\ (forall x y, In x R -> In y occ -> ~ In y R -> ranks_before occ x y))
  /\ getRelatedTags example_catalog (lit "cat") = [lit "birthday"].
Proof.
  split; [|vm_compute; reflexivity].
  intros images tag Hidx. cbn zeta.
  rewrite (getRelatedTags_tally images tag Hidx).
  set (occ := related_occurrences images tag).
  set (pos := fun e : str * nat => index_of (fst e) occ).
  destruct (sort_by_count_sorted_perm pos (tally occ) (tally_pos_sorted occ)) as [Hs Hp].
  set (S := sort_by_count (tally occ)) in *.
  assert (Helem : forall e, In e S -> snd e = count_in (fst e) occ /\ In (fst e) (first_seen occ)).
  { intros e He. apply In_tally. eapply Permutation_in; [exact Hp | exact He]. }
  assert (Hfst : Permutation (map fst S) (first_seen occ)).
  { rewrite <- map_fst_tally. apply Permutation_map. exact Hp. }
  pose proof (firstn_skipn 5 S) as Hsplit.
  assert (Hs' := Hs). rewrite <- Hsplit in Hs'.
  apply SS_app_inv in Hs' as (Hs5 & _ & Hcross).
  assert (Hin5 : forall e, In e (firstn 5 S) -> In e S).
  { intros e He. rewrite <- Hsplit. apply in_or_app. left. exact He. }
  assert (HinR : forall t, In t (map fst (firstn 5 S)) -> In t (first_seen occ)).
  { intros t Ht. apply in_map_iff in Ht as (e & <- & He). apply Helem, Hin5, He. }
  split; [|split; [|split; [|split]]].
  - (* no duplicates *)
    rewrite <- firstn_map.
    assert (Hnd : NoDup (map fst S)).
    { eapply Permutation_NoDup; [symmetry; exact Hfst | apply NoDup_first_seen]. }
    rewrite <- (firstn_skipn 5 (map fst S)) in Hnd.
    eapply NoDup_app_remove_r. exact Hnd.
  - (* length *)
    rewrite length_map, length_firstn.
    rewrite <- (Permutation_length Hfst), length_map. reflexivity.
  - (* co-occurring, not the focal tag, not "others" *)
    intros t Ht. apply HinR in Ht. rewrite In_first_seen in Ht.
    destruct (In_related_occurrences images tag t Ht) as (_ & _ & _ & H1 & H2).
    auto.
  - (* order inside the result *)
    intros i j x y Hij Hx Hy.
    rewrite nth_error_map in Hx, Hy.
    destruct (nth_error (firstn 5 S) i) as [e1|] eqn:E1; [|discriminate].
    destruct (nth_error (firstn 5 S) j) as [e2|] eqn:E2; [|discriminate].
    injection Hx as <-. injection Hy as <-.
    apply count_rank_ranks_before;
      [apply Helem, Hin5; eapply nth_error_In; exact E1
      |apply Helem, Hin5; eapply nth_error_In; exact E2|].
    exact (SS_nth _ _ i j e1 e2 Hs5 Hij E1 E2).
  - (* completeness: what is left out ranks after what is returned *)
    intros x y Hx Hy HyR.
    apply in_map_iff in Hx as (e1 & <- & He1).
    rewrite <- In_first_seen in Hy.
    apply (Permutation_in _ (Permutation_sym Hfst)) in Hy.
    apply in_map_iff in Hy as (e2 & <- & He2).
    assert (He2' : In e2 (skipn 5 S)).
    { rewrite <- Hsplit in He2. apply in_app_or in He2 as [He2|He2]; [|exact He2].
      exfalso. apply HyR. apply in_map. exact He2. }
    apply count_rank_ranks_before;
      [apply Helem, Hin5, He1 | apply Helem, He2 |].
    apply Hcross; assumption.
Qed.

Lemma getRelatedTags_top5_witness :
  NoDup (getRelatedTags [tagged_image ["cat"; "b"; "a"]; tagged_image ["cat"; "a"]]%string
                        (lit "cat")).
Proof.
  apply (proj1 getRelatedTags_top5).
  intros img t Himg Ht. cbn in Himg.
  destruct Himg as [<- | [<- | []]]; cbn in Ht;
    repeat (destruct Ht as [<- | Ht]; [reflexivity|]); destruct Ht.
Defined.

(** * Further properties of the code *)

(** ** String helpers *)

Lemma starts_with_app p s : starts_with p (p ++ s) = true.
Proof. induction p as [|a p IH]; cbn; [reflexivity|]. rewrite Ascii.eqb_refl. exact IH. Qed.

Lemma starts_with_inv p s : starts_with p s = true -> exists r, s = p ++ r.
Proof.
  revert s. induction p as [|a p IH]; intros s H; [exists s; reflexivity|].
  destruct s as [|b s]; [discriminate|]. cbn in H. apply andb_true_iff in H as [Hab H].
  apply Ascii.eqb_eq in Hab. subst b. destruct (IH s H) as [r ->]. exists r. reflexivity.
Qed.

Lemma includes_cons p x s : includes p (x :: s) = starts_with p (x :: s) || includes p s.
Proof. reflexivity. Qed.

Lemma includes_nil s : includes [] s = true.
Proof. destruct s; reflexivity. Qed.

(** A needle whose first character does not occur in a prefix cannot
    start inside that prefix. *)
Lemma includes_skip_prefix a p t s :
  ~ In a t -> includes (a :: p) (t ++ s) = includes (a :: p) s.
Proof.
  induction t as [|x t IH]; intros Hn; [reflexivity|].
  cbn [app]. rewrite includes_cons, IH by (intros H; apply Hn; right; exact H).
  assert (Hax : Ascii.eqb a x = false).
  { apply Ascii.eqb_neq. intros ->. apply Hn. left. reflexivity. }
  cbn [starts_with]. rewrite Hax. reflexivity.
Qed.

Lemma replace_first_eq a b s :
  replace_first a b s =
  if starts_with a s then b ++ skipn (length a) s
  else match s with [] => [] | c :: s' => c :: replace_first a b s' end.
Proof. destruct s; reflexivity. Qed.

(** ** [processR2Url] *)

Lemma r2_markers_skip_scheme t s :
  (t = lit "http://" \/ t = lit "https://") ->
  (includes (lit ".r2.dev") (t ++ s) || includes (lit "r2.cloudflarestorage.com") (t ++ s))
  = (includes (lit ".r2.dev") s || includes (lit "r2.cloudflarestorage.com") s).
Proof.
  intros Ht.
  change (lit ".r2.dev") with ("."%char :: lit "r2.dev").
  change (lit "r2.cloudflarestorage.com") with ("r"%char :: lit "2.cloudflarestorage.com").
  rewrite !includes_skip_prefix; [reflexivity| |];
    destruct Ht as [->| ->]; cbn; intuition discriminate.
Qed.

(** [processR2Url] changes a URL only by upgrading the scheme [http://]
    of a Cloudflare R2 URL to [https://]; processing twice is processing
    once. *)
Theorem processR2Url_scheme_only (url : str) :
  (processR2Url url = url
   \/ exists rest, url = lit "http://" ++ rest /\ processR2Url url = lit "https://" ++ rest)
  /\ processR2Url (processR2Url url) = processR2Url url.
Proof.
  unfold processR2Url.
  destruct (includes (lit ".r2.dev") url || includes (lit "r2.cloudflarestorage.com") url) eqn:R.
  - destruct (starts_with (lit "http://") url) eqn:H.
    + destruct (starts_with_inv _ _ H) as [rest ->].
      rewrite replace_first_eq, H, skipn_app, skipn_all, Nat.sub_diag. cbn [skipn app].
      rewrite (r2_markers_skip_scheme (lit "http://")) in R by auto.
      rewrite (r2_markers_skip_scheme (lit "https://")) by auto.
      rewrite R. split; [right; exists rest; auto|]. reflexivity.
    + rewrite R, H. auto.
  - rewrite R. auto.
Qed.

(** ** [downloadImage] *)

(** [downloadImage] never settles exactly when the direct link throws and
    then either the fetch never completes (no response, or a response
    whose body never arrives), or the fetch fails and the image never
    loads, or the image loads and the canvas yields a blob: the blob
    callback then throws outside any [try] and never resolves. *)
Theorem downloadImage_hangs env (url filename : str) :
  let u := processR2Url url in
  let fetch_stalls := fetch_result env u = FetchPending
                      \/ (fetch_result env u = FetchStatus true
                          /\ blob_result env u = BlobPending) in
  fst (downloadImage env url filename) = None
  <-> dom_ok env = false
      /\ (fetch_stalls
          \/ (~ fetch_stalls
              /\ (img_load env u = ImgPending
                  \/ (img_load env u = ImgLoaded /\ canvas_ctx env = true
                      /\ to_blob env u = ToBlobBlob)))).
Proof.
  cbn zeta. unfold downloadImage, downloadImageWithLink, downloadImageWithFetch,
    downloadImageViaImgElement.
  destruct (dom_ok env); [cbn; split; [discriminate|intros [H _]; discriminate]|].
  destruct (fetch_result env (processR2Url url)) as [| |[|]];
    try destruct (blob_result env (processR2Url url));
    destruct (img_load env (processR2Url url)); try destruct (canvas_ctx env);
    try destruct (to_blob env (processR2Url url));
    cbn; intuition congruence.
Qed.

(** ** Image URLs *)

(** [fixImageUrl] yields a URL under [/images/] or an absolute [http]
    URL, and leaves such a URL unchanged. *)
Theorem fixImageUrl_normal_form (url : str) :
  fixImageUrl (fixImageUrl url) = fixImageUrl url
  /\ (starts_with (lit "/images/") (fixImageUrl url) = true
      \/ starts_with (lit "http") (fixImageUrl url) = true).
Proof.
  unfold fixImageUrl.
  destruct (starts_with (lit "/images/") url) eqn:E1; cbn [negb andb].
  - rewrite E1. cbn [negb andb]. auto.
  - destruct (starts_with (lit "http") url) eqn:E2; cbn [negb andb].
    + rewrite E1, E2. cbn [negb andb]. auto.
    + rewrite starts_with_app. cbn [negb andb]. split; [reflexivity|left; reflexivity].
Qed.

(** ** The grid filter *)

Lemma filter_all_true {A} (f : A -> bool) l : (forall x, f x = true) -> filter f l = l.
Proof. intros H. induction l as [|x l IH]; cbn; [reflexivity|]. rewrite H, IH. reflexivity. Qed.

(** With an empty search and no selected tag the grid lists the whole
    catalog, in catalog order, with its URLs fixed. *)
Theorem getFilteredImages_no_filter p :
  searchTerm p = [] -> selectedTags p = [] -> getFilteredImages p = map fix_urls (images p).
Proof.
  intros Hs Ht. unfold getFilteredImages. f_equal. apply filter_all_true.
  intros img. unfold matches_filter. rewrite Hs, Ht. cbn [to_lower map].
  rewrite includes_nil. reflexivity.
Qed.

(** Selected tags combine with OR: once some tag is selected, selecting
    more tags never hides an asset. *)
Theorem getFilteredImages_more_tags p p' :
  images p' = images p -> searchTerm p' = searchTerm p ->
  selectedTags p <> [] -> incl (selectedTags p) (selectedTags p') ->
  incl (getFilteredImages p) (getFilteredImages p').
Proof.
  intros Hi Hs Hne Hincl x Hx. unfold getFilteredImages in *.
  apply in_map_iff in Hx as [img [<- Himg]]. apply in_map.
  apply filter_In in Himg as [Hin Hm]. rewrite Hi. apply filter_In. split; [exact Hin|].
  unfold matches_filter in *. rewrite Hs. apply andb_true_iff in Hm as [Hm1 Hm2].
  rewrite Hm1. cbn [andb].
  apply orb_true_iff in Hm2 as [H0|Hex].
  - apply Nat.eqb_eq, length_zero_iff_nil in H0. contradiction.
  - apply existsb_exists in Hex as [t [Ht Htag]].
    apply orb_true_iff. right. apply existsb_exists. exists t. auto.
Qed.

(** ** Infinite scroll *)

Lemma growth_iter_inv p st0 k :
  let F := getFilteredImages p in
  let st := Nat.iter k (growth_trigger p) (on_filter_change p st0) in
  displayedImages st = firstn (currentPage st * imagesPerPage) F
  /\ 1 <= currentPage st <= S k
  /\ (currentPage st < S k -> length F <= currentPage st * imagesPerPage).
Proof.
  cbn zeta. induction k as [|k [IHd [IHc IHlt]]].
  - cbn. split; [reflexivity|lia].
  - rewrite Nat.iter_succ.
    set (st := Nat.iter k (growth_trigger p) (on_filter_change p st0)) in *.
    unfold growth_trigger. destruct (hasMoreImages p st) eqn:Hm.
    + unfold hasMoreImages in Hm. apply Nat.ltb_lt in Hm.
      assert (Hc : currentPage st = S k).
      { destruct (Nat.eq_dec (currentPage st) (S k)) as [E|E]; [exact E|].
        specialize (IHlt ltac:(lia)). lia. }
      unfold loadMoreImages, loadImages. cbn [displayedImages currentPage].
      replace (currentPage st + 1 =? 1) with false by (symmetry; apply Nat.eqb_neq; lia).
      rewrite IHd. unfold list_slice.
      replace (currentPage st + 1 - 1) with (currentPage st) by lia.
      replace (currentPage st * imagesPerPage + imagesPerPage - currentPage st * imagesPerPage)
        with imagesPerPage by lia.
      rewrite firstn_app_firstn_skipn. split; [f_equal; lia|lia].
    + unfold hasMoreImages in Hm. apply Nat.ltb_ge in Hm.
      split; [exact IHd|]. split; [lia|]. intros _. exact Hm.
Qed.

(** From a filter change, after [k] sentinel triggers the grid shows the
    first [(k + 1) * 24] filtered assets, the sentinel stays active exactly
    while assets remain hidden, and once [(k + 1) * 24] reaches the total
    every filtered asset is shown and a further trigger changes nothing. *)
Theorem infinite_scroll_reaches_end p st0 k :
  let F := getFilteredImages p in
  let st := Nat.iter k (growth_trigger p) (on_filter_change p st0) in
  displayedImages st = firstn (S k * imagesPerPage) F
  /\ hasMoreImages p st = Nat.ltb (S k * imagesPerPage) (length F)
  /\ (length F <= S k * imagesPerPage -> displayedImages st = F /\ growth_trigger p st = st).
Proof.
  cbn zeta. destruct (growth_iter_inv p st0 k) as [Hd [Hc Hlt]]. cbn zeta in Hd, Hc, Hlt.
  set (st := Nat.iter k (growth_trigger p) (on_filter_change p st0)) in *.
  set (F := getFilteredImages p) in *.
  assert (Hdisp : displayedImages st = firstn (S k * imagesPerPage) F).
  { rewrite Hd. destruct (Nat.eq_dec (currentPage st) (S k)) as [E|E]; [rewrite E; reflexivity|].
    specialize (Hlt ltac:(lia)). rewrite !firstn_all2 by nia. reflexivity. }
  assert (Hmore : hasMoreImages p st = Nat.ltb (S k * imagesPerPage) (length F)).
  { unfold hasMoreImages. fold F.
    destruct (Nat.eq_dec (currentPage st) (S k)) as [E|E]; [rewrite E; reflexivity|].
    specialize (Hlt ltac:(lia)).
    rewrite (proj2 (Nat.ltb_ge _ _)) by lia. symmetry. apply Nat.ltb_ge. nia. }
  split; [exact Hdisp|]. split; [exact Hmore|].
  intros Hle. split.
  - rewrite Hdisp. apply firstn_all2. exact Hle.
  - unfold growth_trigger. rewrite Hmore. rewrite (proj2 (Nat.ltb_ge _ _)) by exact Hle. reflexivity.
Qed.

(** ** Card tags *)

(** Every tag of a card is shown among the first three or counted by the
    [+n] badge, which appears exactly when some tag is not shown. *)
Theorem card_tags_account_for_all img :
  fst (card_tags img) ++ skipn 3 (tags img) = tags img
  /\ snd (card_tags img) = match skipn 3 (tags img) with [] => None | rest => Some (length rest) end.
Proof.
  unfold card_tags, list_slice. cbn [fst snd skipn Nat.sub]. split; [apply firstn_skipn|].
  destruct (tags img) as [|a [|b [|c [|d l]]]]; cbn; reflexivity.
Qed.

(** ** [TagPage] routing and the tag chips *)

Lemma obj_get_None {V} (o : jsobj V) k : obj_get o k = None <-> ~ In k (map fst o).
Proof.
  induction o as [|[k' v] o IH]; cbn; [tauto|].
  destruct (str_eqb k k') eqn:E.
  - apply str_eqb_eq in E. subst k'. split; [discriminate|].
    intros H. exfalso. apply H. left. reflexivity.
  - rewrite IH. split.
    + intros H [H'|H']; [subst k'; rewrite str_eqb_refl in E; discriminate|exact (H H')].
    + intros H H'. apply H. right. exact H'.
Qed.

Lemma slug_to_tag_keys : map fst SLUG_TO_TAG = map snd TAG_TO_SLUG.
Proof. vm_compute. reflexivity. Qed.

Lemma slug_to_tag_values_nonempty :
  forallb (fun e => negb (Nat.eqb (length (snd e)) 0)) SLUG_TO_TAG = true.
Proof. vm_compute. reflexivity. Qed.

(** [TagPage] redirects to the home page exactly when the path, without
    its leading [/], is neither a slug of [TAG_TO_SLUG] nor the name of a
    member of [Object.prototype]; it throws a [TypeError] exactly for the
    name of such a member (such as [/constructor]); and for a slug it
    renders the slug's tag with the canonical URL of that slug. *)
Theorem TagPage_outcome (pathname : str) :
  let k := tagpage_pathname pathname in
  (TagPage pathname = TagRedirect
   <-> ~ In k (map snd TAG_TO_SLUG) /\ ~ In k object_prototype_members)
  /\ (TagPage pathname = TagThrows TypeError
      <-> ~ In k (map snd TAG_TO_SLUG) /\ In k object_prototype_members)
  /\ (forall tag, In (tag, k) TAG_TO_SLUG ->
      TagPage pathname = TagRender (ROwn tag) (lit "https://clippng.online/" ++ k)).
Proof.
  cbv zeta. unfold TagPage, tagpage_tag, record_read.
  generalize (tagpage_pathname pathname) as k. intros k.
  assert (Hown : forall v, obj_get SLUG_TO_TAG k = Some v ->
                 read_truthy (ROwn v) = true /\ In k (map snd TAG_TO_SLUG)).
  { intros v G. split.
    - pose proof slug_to_tag_values_nonempty as Hn. rewrite forallb_forall in Hn.
      specialize (Hn _ (obj_get_In _ _ _ G)). cbn [snd] in Hn. exact Hn.
    - rewrite <- slug_to_tag_keys. exact (in_map fst _ _ (obj_get_In _ _ _ G)). }
  split; [|split].
  - destruct (obj_get SLUG_TO_TAG k) as [v|] eqn:G.
    + destruct (Hown v eq_refl) as [Hv Hk]. rewrite Hv. cbn [negb].
      split; [discriminate|]. intros [H _]. contradiction.
    + apply obj_get_None in G. rewrite slug_to_tag_keys in G.
      destruct (existsb (str_eqb k) object_prototype_members) eqn:P; cbn [read_truthy negb].
      * split; [discriminate|]. intros [_ H]. apply existsb_str_In in P. contradiction.
      * split; [intros _|reflexivity]. split; [exact G|].
        intros H. apply existsb_str_In in H. congruence.
  - destruct (obj_get SLUG_TO_TAG k) as [v|] eqn:G.
    + destruct (Hown v eq_refl) as [Hv Hk]. rewrite Hv. cbn [negb].
      split; [discriminate|]. intros [H _]. contradiction.
    + apply obj_get_None in G. rewrite slug_to_tag_keys in G.
      destruct (existsb (str_eqb k) object_prototype_members) eqn:P; cbn [read_truthy negb].
      * split; [intros _|reflexivity]. split; [exact G|]. apply existsb_str_In. exact P.
      * split; [discriminate|]. intros [_ H]. apply existsb_str_In in H. congruence.
  - intros tag H. unfold TAG_TO_SLUG in H. cbn [map In fst snd] in H.
    repeat (destruct H as [H|H]; [injection H as <- <-; vm_compute; reflexivity|]).
    destruct H.
Qed.

(** The chip of every tag of [TAG_TO_SLUG] links to [/<slug>], where
    [TagPage] renders that same tag with the canonical URL
    [https://clippng.online/<slug>]. *)
Theorem tag_chip_opens_tag_page tag slug :
  In (tag, slug) TAG_TO_SLUG ->
  tag_chip_link tag = lit "/" ++ slug
  /\ TagPage (tag_chip_link tag) = TagRender (ROwn tag) (lit "https://clippng.online/" ++ slug).
Proof.
  intros H. unfold TAG_TO_SLUG in H. cbn [map In fst snd] in H.
  repeat (destruct H as [H|H]; [injection H as <- <-; split; vm_compute; reflexivity|]).
  destruct H.
Qed.

(** The chip of a catalog tag missing from [TAG_TO_SLUG] (and not named
    like an [Object.prototype] member) links to [/undefined], which
    [TagPage] redirects to the home page. *)
Theorem tag_chip_unknown_tag tag :
  ~ In tag (map fst TAG_TO_SLUG) -> ~ In tag object_prototype_members ->
  tag_chip_link tag = lit "/undefined" /\ TagPage (tag_chip_link tag) = TagRedirect.
Proof.
  intros H1 H2. unfold tag_chip_link, record_read.
  rewrite (proj2 (obj_get_None _ _) H1).
  destruct (existsb (str_eqb tag) object_prototype_members) eqn:P;
    [apply existsb_str_In in P; contradiction|].
  split; [reflexivity|vm_compute; reflexivity].
Qed.

(** ** The tag list *)

Lemma set_add_fold_spec l acc :
  NoDup acc ->
  NoDup (fold_left set_add l acc)
  /\ (forall x, In x (fold_left set_add l acc) <-> In x acc \/ In x l).
Proof.
  revert acc. induction l as [|y l IH]; intros acc Hnd; cbn [fold_left].
  - split; [exact Hnd|]. intros x. cbn [In]. tauto.
  - assert (Hs : NoDup (set_add acc y) /\ (forall x, In x (set_add acc y) <-> In x acc \/ y = x)).
    { unfold set_add. destruct (existsb (str_eqb y) acc) eqn:E.
      - apply existsb_str_In in E. split; [exact Hnd|]. intros x. split; [auto|].
        intros [H| <-]; auto.
      - split.
        + apply Permutation_NoDup with (y :: acc); [apply Permutation_cons_append|].
          constructor; [|exact Hnd]. intros H. apply existsb_str_In in H. congruence.
        + intros x. rewrite in_app_iff. cbn [In]. tauto. }
    destruct Hs as [Hs1 Hs2]. destruct (IH _ Hs1) as [Hn Hi].
    split; [exact Hn|]. intros x. rewrite Hi, Hs2. cbn [In]. tauto.
Qed.

Lemma insert_cmp_perm lc e l : Permutation (insert_cmp lc e l) (e :: l).
Proof.
  induction l as [|x l IH]; cbn [insert_cmp]; [reflexivity|].
  destruct (0 <? allTags_cmp lc x e)%Z; [reflexivity|].
  rewrite IH. apply perm_swap.
Qed.

Lemma sort_cmp_fold_perm lc l acc :
  Permutation (fold_left (fun acc e => insert_cmp lc e acc) l acc) (acc ++ l).
Proof.
  revert acc. induction l as [|e l IH]; intros acc; cbn [fold_left].
  - rewrite app_nil_r. reflexivity.
  - rewrite IH, insert_cmp_perm. cbn [app]. apply Permutation_middle.
Qed.

Lemma str_eqb_others_false x : x <> tag_others -> str_eqb x tag_others = false.
Proof.
  intros H. destruct (str_eqb x tag_others) eqn:E; [|reflexivity].
  apply str_eqb_eq in E. contradiction.
Qed.

Lemma insert_cmp_others_end lc l :
  ~ In tag_others l -> insert_cmp lc tag_others l = l ++ [tag_others].
Proof.
  induction l as [|x l IH]; intros Hn; [reflexivity|].
  cbn [insert_cmp]. unfold allTags_cmp at 1.
  rewrite str_eqb_others_false by (intros ->; apply Hn; left; reflexivity).
  rewrite str_eqb_refl. change (0 <? -1)%Z with false. cbn iota.
  rewrite IH by (intros H; apply Hn; right; exact H). reflexivity.
Qed.

Lemma insert_cmp_before_others lc e pre :
  e <> tag_others -> ~ In tag_others pre ->
  exists pre', insert_cmp lc e (pre ++ [tag_others]) = pre' ++ [tag_others]
               /\ ~ In tag_others pre'.
Proof.
  intros He. induction pre as [|x pre IH]; intros Hn.
  - cbn [app insert_cmp]. unfold allTags_cmp. rewrite str_eqb_refl. change (0 <? 1)%Z with true.
    exists [e]. split; [reflexivity|]. intros [H|[]]. congruence.
  - cbn [app insert_cmp]. destruct (0 <? allTags_cmp lc x e)%Z.
    + exists (e :: x :: pre). split; [reflexivity|].
      intros [H|H]; [congruence|exact (Hn H)].
    + destruct (IH (fun H => Hn (or_intror H))) as [pre' [Eq Hn']]. rewrite Eq.
      exists (x :: pre'). split; [reflexivity|].
      intros [H|H]; [apply Hn; left; exact H|exact (Hn' H)].
Qed.

Lemma sort_cmp_others_inv lc l acc :
  NoDup l -> (In tag_others acc -> ~ In tag_others l) ->
  (In tag_others acc -> exists pre, acc = pre ++ [tag_others] /\ ~ In tag_others pre) ->
  let r := fold_left (fun acc e => insert_cmp lc e acc) l acc in
  In tag_others r -> exists pre, r = pre ++ [tag_others] /\ ~ In tag_others pre.
Proof.
  revert acc. induction l as [|e l IH]; intros acc Hnd Hdis Hinv; cbn zeta; cbn [fold_left].
  - exact Hinv.
  - apply NoDup_cons_iff in Hnd as [He Hnd].
    assert (Hperm := insert_cmp_perm lc e acc).
    apply IH; [exact Hnd| |].
    + intros Hin. apply (Permutation_in _ Hperm) in Hin. destruct Hin as [<-|Hin]; [exact He|].
      intros H. exact (Hdis Hin (or_intror H)).
    + destruct (list_eq_dec ascii_dec e tag_others) as [->|Hne].
      * assert (Hna : ~ In tag_others acc) by (intros H; exact (Hdis H (or_introl eq_refl))).
        rewrite insert_cmp_others_end by exact Hna. intros _. exists acc. auto.
      * intros Hin. apply (Permutation_in _ Hperm) in Hin. destruct Hin as [H|Hin]; [congruence|].
        destruct (Hinv Hin) as [pre [-> Hpre]].
        exact (insert_cmp_before_others lc e pre Hne Hpre).
Qed.

(** The tag list of the grid names every catalog tag exactly once, and
    [others], when some asset has it, comes last, whatever the locale
    order of the other tags. *)
Theorem allTags_distinct_others_last localeCompare images :
  let L := allTags localeCompare images in
  NoDup L
  /\ (forall t, In t L <-> exists img, In img images /\ In t (tags img))
  /\ (In tag_others L -> exists pre, L = pre ++ [tag_others] /\ ~ In tag_others pre).
Proof.
  cbn zeta. unfold allTags, sort_cmp.
  destruct (set_add_fold_spec (flat_map tags images) [] (NoDup_nil _)) as [Hnd Hin].
  fold (set_of_list (flat_map tags images)) in Hnd, Hin.
  assert (Hp := sort_cmp_fold_perm localeCompare (set_of_list (flat_map tags images)) []).
  cbn [app] in Hp.
  split; [exact (Permutation_NoDup (Permutation_sym Hp) Hnd)|]. split.
  - intros t. split.
    + intros H. apply (Permutation_in _ Hp), Hin in H. destruct H as [[]|H].
      apply in_flat_map in H. exact H.
    + intros H. apply (Permutation_in _ (Permutation_sym Hp)), Hin. right.
      apply in_flat_map. exact H.
  - apply sort_cmp_others_inv; [exact Hnd|intros []|intros []].
Qed.

(** ** The download button of a grid card *)

Lemma find_some_first {A} (f : A -> bool) l x :
  In x l -> f x = true -> exists y, find f l = Some y /\ In y l /\ f y = true.
Proof.
  intros Hin Hf. destruct (find f l) as [y|] eqn:E.
  - exists y. apply find_some in E as [E1 E2]. auto.
  - exfalso. rewrite (find_none f l E x Hin) in Hf. discriminate.
Qed.

(** The download button of every card the grid lists finds a catalog
    asset whose png URL, as stored or fixed, is the card's URL: the
    download is recorded under that asset's id and named after its
    caption, and the anonymous [image-transparent.png] branch is never
    taken from a card. *)
Theorem ImageGrid_download_finds_card env p card :
  In card (getFilteredImages p) ->
  exists imageObj,
    In imageObj (images p)
    /\ (png_url imageObj = png_url card \/ fixImageUrl (png_url imageObj) = png_url card)
    /\ ImageGrid_handleDownload env (images p) (png_url card)
       = (Some (img_id imageObj,
                if str_eqb (png_url card) (sticker_url imageObj) then lit "outlined"
                else lit "transparent"),
          downloadImage env (png_url card) (caption imageObj ++ lit "-transparent.png")).
Proof.
  intros Hc. unfold getFilteredImages in Hc.
  apply in_map_iff in Hc as [img [<- Himg]]. apply filter_In in Himg as [Himg _].
  set (f := fun i => str_eqb (png_url i) (png_url (fix_urls img))
                     || str_eqb (fixImageUrl (png_url i)) (png_url (fix_urls img))).
  assert (Hf : f img = true).
  { unfold f. cbn [png_url fix_urls]. rewrite str_eqb_refl, orb_true_r. reflexivity. }
  destruct (find_some_first f _ _ Himg Hf) as [o [Hfind [Hin Ho]]].
  exists o. split; [exact Hin|]. split.
  - unfold f in Ho. apply orb_true_iff in Ho as [H|H]; apply str_eqb_eq in H; auto.
  - unfold ImageGrid_handleDownload, grid_download_request, find_image.
    fold f. rewrite Hfind. reflexivity.
Qed.

(** ** The detail view *)

Lemma truthy_JStr s : truthy (JStr s) = true <-> s <> [].
Proof. destruct s; cbn; split; congruence. Qed.

Lemma or_str_nonempty a b : b <> [] -> or_str a b <> [].
Proof.
  intros Hb. destruct a as [x|]; cbn [or_str]; [|exact Hb].
  destruct (truthy (JStr x)) eqn:T; [apply truthy_JStr in T; exact T|exact Hb].
Qed.

(** The main tag of the detail view is never empty; it is the first tag
    other than [others] whenever that tag is not the empty string. *)
Theorem getMainTag_nonempty image extra :
  getMainTag image extra <> []
  /\ (forall t, find (fun tag => negb (str_eqb tag tag_others)) (tags image) = Some t ->
      t <> [] -> getMainTag image extra = t).
Proof.
  unfold getMainTag. cbv zeta.
  match goal with
  | |- context [match ?F with Some t => if truthy (JStr t) then t else ?fb | None => ?fb end] =>
      assert (Hfb : fb <> []); [|destruct F as [t|] eqn:E]
  end.
  - destruct (main_noun extra) as [[|a n]|]; cbn [opt_str truthy length Nat.eqb negb];
      [| discriminate |];
      repeat apply or_str_nonempty; discriminate.
  - split.
    + destruct (truthy (JStr t)) eqn:T; [apply truthy_JStr in T; exact T|exact Hfb].
    + intros t' Ht' Hne. injection Ht' as <-. rewrite (proj2 (truthy_JStr t) Hne). reflexivity.
  - split; [exact Hfb|]. intros t' Ht'. discriminate.
Qed.

Lemma split_on_head c s :
  exists w ws, split_on c s = w :: ws /\ ~ In c w /\ (s = w \/ exists r, s = w ++ c :: r).
Proof.
  induction s as [|a s IH].
  - exists [], []. split; [reflexivity|]. split; [intros []|]. left. reflexivity.
  - cbn [split_on]. destruct (Ascii.eqb a c) eqn:E.
    + apply Ascii.eqb_eq in E. subst a. exists [], (split_on c s).
      split; [reflexivity|]. split; [intros []|]. right. exists s. reflexivity.
    + destruct IH as [w [ws [Eq [Hn Hs]]]]. rewrite Eq. exists (a :: w), ws.
      split; [reflexivity|]. split.
      * intros [H|H]; [apply Ascii.eqb_neq in E; congruence|exact (Hn H)].
      * destruct Hs as [->|[r ->]]; [left; reflexivity|right; exists r; reflexivity].
Qed.

(** The photographer link of the detail view is empty exactly when the
    asset has no username, no Unsplash id and no photographer URL;
    otherwise it ends with the UTM query.  Built from the photographer
    URL, it keeps that URL up to its first [?] and drops the URL's own
    query. *)
Theorem attribution_link_shape extra :
  let link := getAttributionLinks extra in
  (link = [] <-> truthy (opt_str (username extra)) = false
                 /\ truthy (opt_str (unsplash_id extra)) = false
                 /\ truthy (opt_str (photographer_url extra)) = false)
  /\ (link <> [] -> exists pre, link = pre ++ utm_query)
  /\ (forall u, truthy (opt_str (username extra)) = false ->
       truthy (opt_str (unsplash_id extra)) = false ->
       photographer_url extra = Some u -> u <> [] ->
       exists base, link = base ++ utm_query /\ ~ In "?"%char base
                    /\ (u = base \/ exists query, u = base ++ "?"%char :: query)).
Proof.
  cbn zeta. unfold getAttributionLinks.
  assert (Hu : forall pre, pre ++ utm_query <> []) by (intros pre H; apply app_eq_nil in H as [_ H]; discriminate).
  destruct (truthy (opt_str (username extra))) eqn:U.
  { split; [split; [intros H; rewrite app_assoc in H; exfalso; exact (Hu _ H)|intros [H _]; discriminate]|].
    split; [intros _; eexists; rewrite app_assoc; reflexivity|]. intros u H. discriminate. }
  destruct (truthy (opt_str (unsplash_id extra))) eqn:I.
  { split; [split; [intros H; rewrite app_assoc in H; exfalso; exact (Hu _ H)|intros [_ [H _]]; discriminate]|].
    split; [intros _; eexists; rewrite app_assoc; reflexivity|]. intros u _ H. discriminate. }
  destruct (truthy (opt_str (photographer_url extra))) eqn:P.
  - destruct (split_on_head "?"%char (match photographer_url extra with Some u => u | None => [] end))
      as [w [ws [Eq [Hn Hs]]]].
    rewrite Eq.
    split; [split; [intros H; exfalso; exact (Hu _ H)|intros [_ [_ H]]; discriminate]|].
    split; [intros _; eexists; reflexivity|].
    intros u _ _ Hpu _. rewrite Hpu in Hs. exists w. auto.
  - split; [split; [intros _; auto|intros _; reflexivity]|].
    split; [intros H; exfalso; apply H; reflexivity|].
    intros u _ _ Hpu Hne. rewrite Hpu in P. cbn [opt_str] in P.
    apply truthy_JStr in Hne. congruence.
Qed.

Lemma includes_first_char a p s : includes (a :: p) s = true -> In a s.
Proof.
  induction s as [|x s IH]; intros H; [cbn in H; discriminate|].
  rewrite includes_cons in H. cbn [starts_with] in H.
  apply orb_true_iff in H as [H|H].
  - apply andb_true_iff in H as [H _]. apply Ascii.eqb_eq in H. left. symmetry. exact H.
  - right. exact (IH H).
Qed.

Lemma id_token_no_slash s p : forallb is_id_char s = true -> includes ("/"%char :: p) s = false.
Proof.
  intros Hs. destruct (includes ("/"%char :: p) s) eqn:E; [|reflexivity].
  apply includes_first_char in E. rewrite forallb_forall in Hs. specialize (Hs _ E).
  discriminate.
Qed.

(** On download, the detail view schedules the Unsplash notification
    only for an asset with an id and a non-empty [unsplash_id]; with a
    canonical Unsplash id (10 to 13 characters of [[a-zA-Z0-9_-]]) the
    notification reports success and sends exactly one request, to the
    API download endpoint of that id. *)
Theorem ImageDetail_notifies_unsplash json_parse env image extra st :
  let d := ImageDetail_handleDownload json_parse env image extra st in
  ((truthy (JStr (img_id image)) && truthy (opt_str (unsplash_id extra))) = false ->
   dl_notification d = None)
  /\ (forall uid, unsplash_id extra = Some uid -> img_id image <> [] ->
      10 <= length uid <= 13 -> forallb is_id_char uid = true ->
      dl_notification d
      = Some (Normal (true, [UNSPLASH_API_URL ++ lit "/photos/" ++ uid
                             ++ lit "/download?client_id=" ++ UNSPLASH_ACCESS_KEY]))).
Proof.
  cbn zeta. unfold ImageDetail_handleDownload. cbn [dl_notification]. split.
  - intros H. rewrite H. reflexivity.
  - intros uid Hu Hid Hlen Hall.
    assert (Huid : uid <> []) by (intros ->; cbn in Hlen; lia).
    rewrite Hu. cbn [opt_str or_str].
    rewrite (proj2 (truthy_JStr _) Hid), (proj2 (truthy_JStr _) Huid). cbn [andb].
    unfold triggerUnsplashDownload, trigger_analyse.
    replace (includes (lit "/photos/") uid) with false
      by (symmetry; exact (id_token_no_slash uid (lit "photos/") Hall)).
    cbn [andb].
    assert (Hx : extractUnsplashId json_parse uid = Normal (JStr uid)).
    { unfold extractUnsplashId. rewrite (proj2 (truthy_JStr _) Huid). cbn [negb].
      rewrite (re_test_exact_shape uid Hlen Hall). reflexivity. }
    rewrite Hx. cbn [cbind try_catch]. change (truthy JNull) with false.
    rewrite (proj2 (truthy_JStr _) Huid). cbn. reflexivity.
Qed.

(** ** What [extractUnsplashId] can return *)

Lemma re_match_seq r1 r2 s i c k :
  re_match (RSeq r1 r2) s i c k = re_match r1 s i c (fun i' c' => re_match r2 s i' c' k).
Proof. reflexivity. Qed.

Lemma re_match_group r s i c k :
  re_match (RGroup r) s i c k = re_match r s i c (fun i' _ => k i' (Some (i, i'))).
Proof. reflexivity. Qed.

Lemma re_match_bol s i c k : re_match RBol s i c k = if Nat.eqb i 0 then k i c else None.
Proof. reflexivity. Qed.

Lemma re_match_eol s i c k : re_match REol s i c k = if Nat.eqb i (length s) then k i c else None.
Proof. reflexivity. Qed.

(** A successful class repetition consumed [j - i] class characters,
    between [min] and [max] of them, and its continuation succeeded at
    [j]. *)
Lemma rep_class_sound f s k x : forall mx mn i c,
  re_match (RRep (RClass f) mn mx) s i c k = Some x ->
  exists j, i + mn <= j <= i + mx
    /\ (forall q, i <= q < j -> exists a, nth_error s q = Some a /\ f a = true)
    /\ k j c = Some x.
Proof.
  induction mx as [|mx IH]; intros mn i c H.
  - rewrite re_match_rep_O in H. destruct (Nat.eqb mn 0) eqn:E; [|discriminate].
    apply Nat.eqb_eq in E. subst mn. exists i. split; [lia|]. split; [intros q Hq; lia|exact H].
  - rewrite re_match_rep_S, re_match_class in H. cbv beta in H.
    assert (Hfb : (if Nat.eqb mn 0 then k i c else None) = Some x ->
                  exists j, i + mn <= j <= i + S mx
                    /\ (forall q, i <= q < j -> exists a, nth_error s q = Some a /\ f a = true)
                    /\ k j c = Some x).
    { intros H'. destruct (Nat.eqb mn 0) eqn:E; [|discriminate].
      apply Nat.eqb_eq in E. subst mn. exists i. split; [lia|].
      split; [intros q Hq; lia|exact H']. }
    destruct (nth_error s i) as [a|] eqn:Ha; [|exact (Hfb H)].
    destruct (f a) eqn:Hf; [|exact (Hfb H)].
    destruct (re_match (RRep (RClass f) (pred mn) mx) s (S i) c k) as [o|] eqn:E; [|exact (Hfb H)].
    injection H as <-. destruct (IH _ _ _ E) as [j [Hj [Hch Hk]]].
    exists j. split; [lia|]. split; [|exact Hk].
    intros q Hq. destruct (Nat.eq_dec q i) as [->|Hne]; [exists a; auto|]. apply Hch. lia.
Qed.

(** A pattern without group passes the captures it receives unchanged to
    its continuation. *)
Lemma nogroup_sound r : no_group r = true ->
  forall s i c k x, re_match r s i c k = Some x -> exists j, k j c = Some x.
Proof.
  induction r as [f|l|r1 IH1 r2 IH2|r1 IH1 r2 IH2|r1 IH mn mx|r1 IH| |];
    intros Hng s i c k x H; cbn [no_group] in Hng.
  - rewrite re_match_class in H.
    destruct (nth_error s i) as [a|]; [destruct (f a); [eauto|discriminate]|discriminate].
  - cbn [re_match] in H. destruct (starts_with l (skipn i s)); [eauto|discriminate].
  - apply andb_true_iff in Hng as [H1 H2]. rewrite re_match_seq in H.
    destruct (IH1 H1 _ _ _ _ _ H) as [j Hj]. exact (IH2 H2 _ _ _ _ _ Hj).
  - apply andb_true_iff in Hng as [H1 H2]. cbn [re_match] in H.
    destruct (re_match r1 s i c k) eqn:E.
    + injection H as <-. exact (IH1 H1 _ _ _ _ _ E).
    + exact (IH2 H2 _ _ _ _ _ H).
  - revert mn i c H. induction mx as [|mx IHm]; intros mn i c H.
    + rewrite re_match_rep_O in H. destruct (Nat.eqb mn 0); [eauto|discriminate].
    + rewrite re_match_rep_S in H.
      destruct (re_match r1 s i c (fun i' c' => re_match (RRep r1 (pred mn) mx) s i' c' k)) eqn:E.
      * injection H as <-. destruct (IH Hng _ _ _ _ _ E) as [j Hj]. exact (IHm _ _ _ Hj).
      * destruct (Nat.eqb mn 0); [eauto|discriminate].
  - discriminate.
  - rewrite re_match_bol in H. destruct (Nat.eqb i 0); [eauto|discriminate].
  - rewrite re_match_eol in H. destruct (Nat.eqb i (length s)); [eauto|discriminate].
Qed.

Lemma skipn_nth_error {A} (s : list A) i a :
  nth_error s i = Some a -> skipn i s = a :: skipn (S i) s.
Proof.
  revert s. induction i as [|i IH]; intros [|b s] H; cbn in H |- *; try discriminate.
  - injection H as ->. reflexivity.
  - exact (IH s H).
Qed.

Lemma forallb_window {A} (f : A -> bool) (s : list A) : forall n i,
  (forall q, i <= q < i + n -> exists a, nth_error s q = Some a /\ f a = true) ->
  forallb f (firstn n (skipn i s)) = true.
Proof.
  induction n as [|n IH]; intros i H; [reflexivity|].
  destruct (H i ltac:(lia)) as [a [Ha Hf]]. rewrite (skipn_nth_error s i a Ha).
  cbn [firstn forallb]. rewrite Hf. cbn [andb]. apply IH. intros q Hq. apply H. lia.
Qed.

Lemma group_id_sound s i c k x :
  re_match (RGroup id_token) s i c k = Some x ->
  exists j, id_token_at s i j /\ k j (Some (i, j)) = Some x.
Proof.
  rewrite re_match_group. unfold id_token. intros H.
  apply rep_class_sound in H as [j [Hj [Hch Hk]]].
  exists j. split; [|exact Hk].
  unfold id_token_at, str_slice, list_slice. split; [lia|]. split.
  - destruct (Hch (pred j) ltac:(lia)) as [a [Ha _]].
    assert (pred j < length s) by (apply nth_error_Some; congruence). lia.
  - apply forallb_window. intros q Hq. apply Hch. lia.
Qed.

Lemma group_then_sound b s i c x : no_group b = true ->
  re_match (RSeq (RGroup id_token) b) s i c accept = Some x ->
  exists i0 j, x = Some (i0, j) /\ id_token_at s i0 j.
Proof.
  intros Hb H. rewrite re_match_seq in H. apply group_id_sound in H as [j [Hj Hk]].
  cbv beta in Hk. destruct (nogroup_sound b Hb _ _ _ _ _ Hk) as [j' Ha].
  unfold accept in Ha. injection Ha as <-. eauto.
Qed.

Lemma prefix_then_sound a r s i c x : no_group a = true ->
  (forall i' c', re_match r s i' c' accept = Some x ->
                 exists i0 j, x = Some (i0, j) /\ id_token_at s i0 j) ->
  re_match (RSeq a r) s i c accept = Some x ->
  exists i0 j, x = Some (i0, j) /\ id_token_at s i0 j.
Proof.
  intros Ha Hr H. rewrite re_match_seq in H.
  destruct (nogroup_sound a Ha _ _ _ _ _ H) as [j Hj]. exact (Hr _ _ Hj).
Qed.

(** Every pattern of [extractUnsplashId] captures an ID token. *)
Lemma patterns_sound s :
  Forall (fun r => forall i x, re_match r s i None accept = Some x ->
                   exists i0 j, x = Some (i0, j) /\ id_token_at s i0 j)
         (patterns ++ [re_general]).
Proof.
  repeat constructor; intros i x H.
  - unfold re_pat1 in H. eapply prefix_then_sound in H; [exact H|..]; [reflexivity|].
    intros i' c' H'. eapply group_then_sound in H'; [exact H'|reflexivity].
  - unfold re_pat2 in H. eapply prefix_then_sound in H; [exact H|..]; [reflexivity|].
    intros i' c' H'. eapply group_then_sound in H'; [exact H'|reflexivity].
  - eapply group_then_sound in H; [exact H|reflexivity].
  - unfold re_pat4 in H. eapply prefix_then_sound in H; [exact H|..]; [reflexivity|].
    intros i' c' H'. eapply group_then_sound in H'; [exact H'|reflexivity].
  - apply group_id_sound in H as [j [Hj Hk]]. unfold accept in Hk. injection Hk as <-. eauto.
Qed.

Lemma exec_from_sound r s (P : caps -> Prop) :
  (forall i x, re_match r s i None accept = Some x -> P x) ->
  forall fuel i x, exec_from r s i fuel = Some x -> P x.
Proof.
  intros Hr fuel. induction fuel as [|fuel IH]; intros i x H; [discriminate|].
  cbn [exec_from] in H. destruct (re_match r s i None accept) eqn:E.
  - injection H as <-. exact (Hr _ _ E).
  - exact (IH _ _ H).
Qed.

Lemma re_exact_sound s i c k x :
  re_match re_exact s i c k = Some x -> 10 <= length s <= 13 /\ forallb is_id_char s = true.
Proof.
  unfold re_exact. intros H. rewrite re_match_seq, re_match_bol in H.
  destruct (Nat.eqb i 0) eqn:E; [|discriminate]. apply Nat.eqb_eq in E. subst i.
  cbv beta in H. rewrite re_match_seq in H. unfold id_token in H.
  apply rep_class_sound in H as [j [Hj [Hch Hk]]]. rewrite re_match_eol in Hk.
  destruct (Nat.eqb j (length s)) eqn:E; [|discriminate]. apply Nat.eqb_eq in E. subst j.
  split; [lia|].
  assert (Hw := forallb_window is_id_char s (length s) 0). cbn [skipn] in Hw.
  rewrite firstn_all in Hw. apply Hw. intros q Hq. apply Hch. lia.
Qed.

(** The whole-string test accepts only an ID token spanning the
    string. *)
Lemma re_test_exact_slice s :
  re_test re_exact s = true -> id_token_at s 0 (length s) /\ str_slice 0 (length s) s = s.
Proof.
  unfold re_test, exec. destruct (exec_from re_exact s 0 (S (length s))) as [x|] eqn:E;
    [|discriminate]. intros _.
  destruct (exec_from_sound re_exact s (fun _ => 10 <= length s <= 13 /\ forallb is_id_char s = true)
              (fun i x H => re_exact_sound s i None accept x H) _ _ _ E) as [Hl Ha].
  unfold id_token_at, str_slice, list_slice. rewrite Nat.sub_0_r. cbn [skipn].
  rewrite firstn_all. split; [split; [lia|split; [lia|exact Ha]]|reflexivity].
Qed.

Lemma try_patterns_sound s ps v :
  Forall (fun r => forall i x, re_match r s i None accept = Some x ->
                   exists i0 j, x = Some (i0, j) /\ id_token_at s i0 j) ps ->
  try_patterns ps s = Some v -> exists i j, v = JStr (str_slice i j s) /\ id_token_at s i j.
Proof.
  induction ps as [|r ps IH]; intros Hall H; [discriminate|].
  inversion Hall as [|? ? Hr Hps]; subst. cbn [try_patterns] in H.
  destruct (exec r s) as [c|] eqn:E; [|exact (IH Hps H)].
  destruct (truthy (group1 s c)) eqn:T; [|exact (IH Hps H)].
  injection H as <-. unfold exec in E.
  destruct (exec_from_sound r s (fun x => exists i0 j, x = Some (i0, j) /\ id_token_at s i0 j)
              Hr _ _ _ E) as [i [j [-> Hij]]].
  exists i, j. auto.
Qed.

Lemma pattern_stage_shape s :
  pattern_stage s = JNull
  \/ exists i j, pattern_stage s = JStr (str_slice i j s) /\ id_token_at s i j.
Proof.
  pose proof (patterns_sound s) as Hp. apply Forall_app in Hp as [Hps Hg].
  inversion Hg as [|? ? Hgen _]; subst.
  unfold pattern_stage. destruct (try_patterns patterns s) as [v|] eqn:E.
  - right. exact (try_patterns_sound s patterns v Hps E).
  - destruct (exec re_general s) as [c|] eqn:Ex; [|left; reflexivity].
    destruct (truthy (group1 s c)); [|left; reflexivity].
    right. unfold exec in Ex.
    destruct (exec_from_sound re_general s
                (fun x => exists i0 j, x = Some (i0, j) /\ id_token_at s i0 j)
                Hgen _ _ _ Ex) as [i [j [-> Hij]]].
    exists i, j. auto.
Qed.

Lemma json_stage_some json_parse s v :
  json_stage json_parse s = Normal (Some v) ->
  starts_with (lit "{") s = true /\ ends_with (lit "}") s = true
  /\ exists parsedData, json_parse s = Normal parsedData
     /\ get_prop parsedData (lit "unsplash_id") = Normal v /\ truthy v = true.
Proof.
  intros H. unfold json_stage in H.
  destruct (starts_with (lit "{") s) eqn:S1; [|discriminate H].
  destruct (ends_with (lit "}") s) eqn:S2; [|discriminate H].
  cbn [andb] in H. unfold try_catch, cbind in H.
  destruct (json_parse s) as [pd|e] eqn:Ep; [|discriminate H].
  destruct (get_prop pd (lit "unsplash_id")) as [u|e] eqn:Eg; [|discriminate H].
  destruct (truthy u) eqn:T; [|discriminate H].
  injection H as <-. split; [reflexivity|]. split; [reflexivity|]. exists pd. auto.
Qed.

(** [extractUnsplashId] returns [null], or a 10-to-13-character token of
    [[a-zA-Z0-9_-]] cut from its argument, or, for an argument of the
    form [{...}] that parses as JSON, the truthy [unsplash_id] field of the
    parsed value. *)
Theorem extractUnsplashId_result_shape json_parse (imageId : str) :
  exists v, extractUnsplashId json_parse imageId = Normal v
  /\ (v = JNull
      \/ (exists i j, v = JStr (str_slice i j imageId) /\ id_token_at imageId i j)
      \/ (starts_with (lit "{") imageId = true /\ ends_with (lit "}") imageId = true
          /\ exists parsedData, json_parse imageId = Normal parsedData
             /\ get_prop parsedData (lit "unsplash_id") = Normal v /\ truthy v = true)).
Proof.
  unfold extractUnsplashId.
  destruct (negb (truthy (JStr imageId))); [eexists; split; [reflexivity|left; reflexivity]|].
  destruct (re_test re_exact imageId) eqn:R.
  - eexists; split; [reflexivity|]. right; left.
    apply re_test_exact_slice in R as [Hid Hs].
    exists 0, (length imageId). rewrite Hs. auto.
  - destruct (json_stage_normal json_parse imageId) as [o Ho]. rewrite Ho. cbn [cbind].
    destruct o as [v|].
    + exists v. split; [reflexivity|]. right; right. exact (json_stage_some _ _ _ Ho).
    + exists (pattern_stage imageId). split; [reflexivity|].
      destruct (pattern_stage_shape imageId) as [H|[i [j [H1 H2]]]];
        [left; exact H|right; left; eauto].
Qed.

Lemma id_token_truthy s i j : id_token_at s i j -> truthy (JStr (str_slice i j s)) = true.
Proof.
  intros [Hl [Hj _]]. apply truthy_JStr. intros H.
  apply (f_equal (@length ascii)) in H. unfold str_slice, list_slice in H.
  rewrite length_firstn, length_skipn in H. cbn in H. lia.
Qed.

(** For a string argument that is neither a download link nor of the
    form [{...}], [triggerUnsplashDownload] either reports failure and
    sends nothing, or reports success and sends exactly one request, to
    the API download endpoint of an ID token cut from the argument. *)
Theorem triggerUnsplashDownload_string_request json_parse (s : str) :
  (includes (lit "/photos/") s && includes (lit "/download") s) = false ->
  (starts_with (lit "{") s && ends_with (lit "}") s) = false ->
  triggerUnsplashDownload json_parse (TStr s) = Normal (false, [])
  \/ exists i j, id_token_at s i j
     /\ triggerUnsplashDownload json_parse (TStr s)
        = Normal (true, [UNSPLASH_API_URL ++ lit "/photos/" ++ str_slice i j s
                         ++ lit "/download?client_id=" ++ UNSPLASH_ACCESS_KEY]).
Proof.
  intros Hdl Hjs.
  assert (Hx : extractUnsplashId json_parse s = Normal JNull
               \/ exists i j, id_token_at s i j
                  /\ extractUnsplashId json_parse s = Normal (JStr (str_slice i j s))).
  { unfold extractUnsplashId.
    destruct (negb (truthy (JStr s))); [left; reflexivity|].
    destruct (re_test re_exact s) eqn:R.
    - right. apply re_test_exact_slice in R as [Hid Hs].
      exists 0, (length s). rewrite Hs. auto.
    - assert (Hj : json_stage json_parse s = Normal None)
        by (unfold json_stage; rewrite Hjs; reflexivity).
      rewrite Hj. cbn [cbind].
      destruct (pattern_stage_shape s) as [H|[i [j [H1 H2]]]];
        [left; rewrite H; reflexivity|right; exists i, j; rewrite H1; auto]. }
  unfold triggerUnsplashDownload, trigger_analyse. rewrite Hdl.
  destruct Hx as [Hx|[i [j [Hij Hx]]]]; rewrite Hx; cbn [cbind try_catch].
  - left. reflexivity.
  - right. exists i, j. split; [exact Hij|].
    change (truthy JNull) with false. rewrite (id_token_truthy s i j Hij). cbn. reflexivity.
Qed.

(** ** Sample runs of the further properties *)

Lemma str_in (x : str) l : existsb (str_eqb x) l = true -> In x l.
Proof.
  intros H. apply existsb_exists in H as [y [Hy Hxy]]. apply str_eqb_eq in Hxy. subst y. exact Hy.
Qed.

Lemma str_not_in (x : str) l : existsb (str_eqb x) l = false -> ~ In x l.
Proof.
  intros H Hin. assert (existsb (str_eqb x) l = true) as H'
    by (apply existsb_exists; exists x; split; [exact Hin|apply str_eqb_eq; reflexivity]).
  congruence.
Qed.

Lemma str_pair_in (x : str * str) l :
  existsb (fun y => str_eqb (fst x) (fst y) && str_eqb (snd x) (snd y)) l = true -> In x l.
Proof.
  intros H. apply existsb_exists in H as [[a b] [Hin Hab]]. apply andb_true_iff in Hab as [Ha Hb].
  apply str_eqb_eq in Ha, Hb. destruct x; cbn in *; subst. exact Hin.
Qed.

Lemma downloadImage_hangs_witness :
  fst (downloadImage stalled_browser (lit "a.png") (lit "a.png")) = None.
Proof.
  pose proof (downloadImage_hangs stalled_browser (lit "a.png") (lit "a.png")) as H.
  cbv zeta in H. apply H. split; [reflexivity|left; right; split; reflexivity].
Defined.

Lemma getFilteredImages_no_filter_witness :
  (searchTerm fifty_props = [] /\ selectedTags fifty_props = [])
  /\ getFilteredImages fifty_props = map fix_urls (images fifty_props).
Proof.
  split; [split; reflexivity|].
  apply getFilteredImages_no_filter; reflexivity.
Defined.

Lemma getFilteredImages_more_tags_witness :
  incl (getFilteredImages cat_props) (getFilteredImages cat_dog_props).
Proof.
  apply getFilteredImages_more_tags; [reflexivity|reflexivity|cbn; discriminate|].
  cbn. intros t [<-|[]]. left. reflexivity.
Defined.

Lemma infinite_scroll_reaches_end_witness :
  let st := Nat.iter 2 (growth_trigger fifty_props) (on_filter_change fifty_props initial_state) in
  displayedImages st = getFilteredImages fifty_props /\ growth_trigger fifty_props st = st.
Proof.
  pose proof (infinite_scroll_reaches_end fifty_props initial_state 2) as H. cbv zeta in H |- *.
  destruct H as [_ [_ H]]. apply H. apply Nat.leb_le. vm_compute. reflexivity.
Defined.

Lemma TagPage_outcome_witness : TagPage (lit "/constructor") = TagThrows TypeError.
Proof.
  pose proof (TagPage_outcome (lit "/constructor")) as H. cbv zeta in H.
  destruct H as [_ [H _]]. apply H.
  split; [apply str_not_in|apply str_in]; vm_compute; reflexivity.
Defined.

Lemma tag_chip_opens_tag_page_witness :
  In (lit "cat", lit "cat-clipart") TAG_TO_SLUG
  /\ TagPage (tag_chip_link (lit "cat"))
     = TagRender (ROwn (lit "cat")) (lit "https://clippng.online/" ++ lit "cat-clipart").
Proof.
  assert (H : In (lit "cat", lit "cat-clipart") TAG_TO_SLUG)
    by (apply str_pair_in; vm_compute; reflexivity).
  split; [exact H|]. exact (proj2 (tag_chip_opens_tag_page _ _ H)).
Defined.

Lemma tag_chip_unknown_tag_witness :
  tag_chip_link (lit "zzz") = lit "/undefined" /\ TagPage (tag_chip_link (lit "zzz")) = TagRedirect.
Proof.
  apply tag_chip_unknown_tag; apply str_not_in; vm_compute; reflexivity.
Defined.

Lemma allTags_distinct_others_last_witness :
  exists pre, allTags (fun _ _ => 0%Z) [tagged_image ["others"; "cat"]%string] = pre ++ [tag_others]
              /\ ~ In tag_others pre.
Proof.
  pose proof (allTags_distinct_others_last (fun _ _ => 0%Z) [tagged_image ["others"; "cat"]%string])
    as H.
  cbv zeta in H. destruct H as [_ [_ H]]. apply H. apply str_in. vm_compute. reflexivity.
Defined.

Lemma ImageGrid_download_finds_card_witness :
  In (fix_urls sample_image) (getFilteredImages one_image_props)
  /\ exists imageObj, In imageObj (images one_image_props)
     /\ snd (ImageGrid_handleDownload (tainted_browser true) (images one_image_props)
                                      (png_url (fix_urls sample_image)))
        = downloadImage (tainted_browser true) (png_url (fix_urls sample_image))
                        (caption imageObj ++ lit "-transparent.png").
Proof.
  assert (Hin : In (fix_urls sample_image) (getFilteredImages one_image_props))
    by (vm_compute; left; reflexivity).
  split; [exact Hin|].
  destruct (ImageGrid_download_finds_card (tainted_browser true) one_image_props _ Hin)
    as [o [Ho [_ Hd]]].
  exists o. split; [exact Ho|]. rewrite Hd. reflexivity.
Defined.

Lemma getMainTag_nonempty_witness : getMainTag sample_image no_fields = lit "cat".
Proof.
  apply (proj2 (getMainTag_nonempty sample_image no_fields)); [reflexivity|vm_compute; discriminate].
Defined.

Lemma attribution_link_shape_witness :
  exists base, getAttributionLinks photographer_fields = base ++ utm_query
               /\ ~ In "?"%char base
               /\ (lit "https://unsplash.com/@jo?ref=x" = base
                   \/ exists query, lit "https://unsplash.com/@jo?ref=x" = base ++ "?"%char :: query).
Proof.
  pose proof (attribution_link_shape photographer_fields) as H. cbv zeta in H.
  destruct H as [_ [_ H]].
  apply (H (lit "https://unsplash.com/@jo?ref=x"));
    [reflexivity|reflexivity|reflexivity|vm_compute; discriminate].
Defined.

Lemma ImageDetail_notifies_unsplash_witness :
  dl_notification (ImageDetail_handleDownload (fun _ => Throw SyntaxError) (tainted_browser true)
                                              sample_image unsplash_fields Transparent)
  = Some (Normal (true, [UNSPLASH_API_URL ++ lit "/photos/" ++ lit "abcDEF1234"
                         ++ lit "/download?client_id=" ++ UNSPLASH_ACCESS_KEY])).
Proof.
  pose proof (ImageDetail_notifies_unsplash (fun _ => Throw SyntaxError) (tainted_browser true)
                sample_image unsplash_fields Transparent) as H.
  cbv zeta in H. destruct H as [_ H].
  apply (H (lit "abcDEF1234")); [reflexivity|vm_compute; discriminate|cbn; lia|reflexivity].
Defined.

Lemma triggerUnsplashDownload_string_request_witness :
  triggerUnsplashDownload (fun _ => Throw SyntaxError) (TStr (lit "photo-AbCdEfGhIjK"))
  = Normal (false, [])
  \/ exists i j, id_token_at (lit "photo-AbCdEfGhIjK") i j
     /\ triggerUnsplashDownload (fun _ => Throw SyntaxError) (TStr (lit "photo-AbCdEfGhIjK"))
        = Normal (true, [UNSPLASH_API_URL ++ lit "/photos/" ++ str_slice i j (lit "photo-AbCdEfGhIjK")
                         ++ lit "/download?client_id=" ++ UNSPLASH_ACCESS_KEY]).
Proof.
  apply triggerUnsplashDownload_string_request; reflexivity.
Defined.
